(** * Dichotomie: the step generators of [demo_numerique.py]

    A shallow embedding of the five binary-search step generators
    ([steps_find_any], [steps_first_occurrence], [steps_last_occurrence],
    [steps_bisect_left], [steps_bisect_right]) and of the result
    aggregation of [run_steps] / [run_count_occurrences], followed by the
    properties of the trace engine.

    Python integers are unbounded, hence [Z]; [//] on a positive divisor
    is floor division, hence [Z.div].  A generator is a computation that
    yields [Step]s and reads list cells; both are recorded, in order, in
    the event list it produces. *)

From Stdlib Require Import ZArith List Ascii String Bool Lia Sorted.
From Stdlib Require Import DecimalString.
Import ListNotations.

Local Open Scope string_scope.
Local Open Scope Z_scope.

(* ================================================================== *)
(** ** Data model *)

(** [@dataclass class Step]. *)
Record Step : Type := mkStep {
  left : Z;
  right : Z;
  mid : Z;
  relation : string;      (* "<", ">", "==", "<=", ">=", "final" *)
  explanation : string;
  done : bool;            (* default False *)
  payload : option Z      (* default None *)
}.

(** [str(i)] on a Python integer, as the f-strings use it. *)
Definition str (z : Z) : string := NilZero.string_of_int (Z.to_int z).

(** [len(arr)]. *)
Definition len (arr : list Z) : Z := Z.of_nat (List.length arr).

(** The cell at a non-negative position (0 past the end); the
    specification-level [S[i]]. *)
Definition item (arr : list Z) (i : Z) : Z := nth (Z.to_nat i) arr 0.

(** The entries ["notes"] and ["doubles"] of [PRESET_BANK]. *)
Definition notes : list Z := [3; 5; 9; 9; 10; 12; 12; 14; 17; 18].
Definition doubles : list Z := [1; 1; 2; 2; 2; 3; 3; 5; 8; 8; 13; 21].

(* ================================================================== *)
(** ** The generator monad *)

Inductive Exception : Type := IndexError.

(** What a generator did: it read a cell ([arr[i]] evaluated at index
    [i]) or it yielded a step. *)
Inductive event : Type :=
| Read (i : Z)
| Yield (s : Step).

(** How a computation ends: normally, with an exception, or with the
    iteration budget of the model exhausted. *)
Inductive outcome (A : Type) : Type :=
| Return (a : A)
| Raise (e : Exception)
| OutOfFuel.

Arguments Return {A} a.
Arguments Raise {A} e.
Arguments OutOfFuel {A}.

Definition Gen (A : Type) : Type := (list event * outcome A)%type.

Definition ret {A} (a : A) : Gen A := ([], Return a).

Definition bind {A B} (c : Gen A) (k : A -> Gen B) : Gen B :=
  match c with
  | (t, Return a) => ((t ++ fst (k a))%list, snd (k a))
  | (t, Raise e) => (t, Raise e)
  | (t, OutOfFuel) => (t, OutOfFuel)
  end.

Notation "x <- c ;; k" := (bind c (fun x => k))
  (at level 61, c at next level, right associativity).
Notation "c ;; k" := (bind c (fun _ => k))
  (at level 61, right associativity).

Definition yield (s : Step) : Gen unit := ([Yield s], Return tt).

Definition out_of_fuel {A} : Gen A := ([], OutOfFuel).

(** [arr[i]] on a Python list: a negative index counts from the end,
    anything outside [-len(arr), len(arr)) raises [IndexError]. *)
Definition getitem (arr : list Z) (i : Z) : Gen Z :=
  if (0 <=? i) && (i <? len arr) then
    ([Read i], Return (item arr i))
  else if (- len arr <=? i) && (i <? 0) then
    ([Read i], Return (item arr (len arr + i)))
  else
    ([Read i], Raise IndexError).

(** The steps a generator yielded, and the indices it read. *)
Fixpoint steps_of (t : list event) : list Step :=
  match t with
  | [] => []
  | Yield s :: t' => s :: steps_of t'
  | Read _ :: t' => steps_of t'
  end.

Fixpoint reads_of (t : list event) : list Z :=
  match t with
  | [] => []
  | Read i :: t' => i :: reads_of t'
  | Yield _ :: t' => reads_of t'
  end.

Definition trace {A} (c : Gen A) : list Step := steps_of (fst c).
Definition reads {A} (c : Gen A) : list Z := reads_of (fst c).
Definition result {A} (c : Gen A) : outcome A := snd c.

(* ================================================================== *)
(** ** The five generators

    Each [while] loop is a function of the loop variables, recursive on
    an iteration budget; the code after the loop is the branch taken
    when the loop test fails.  Every evaluation of [arr[m]] in the
    source, in a test or in an f-string, is a [getitem] here.  The
    generators run their loop with a budget of [len(arr)] iterations,
    which is never exhausted ([run_ok_result] with the [_loop_ok]
    lemmas). *)

Fixpoint find_any_loop (fuel : nat) (arr : list Z) (x g d : Z) : Gen unit :=
  if g <=? d then
    match fuel with
    | O => out_of_fuel
    | S fuel' =>
        let m := (g + d) / 2 in
        a <- getitem arr m ;;
        if a =? x then
          a' <- getitem arr m ;;
          yield (mkStep g d m "=="
                   ("arr[mid]==x (" ++ str a' ++ "==" ++ str x
                      ++ ") → trouvé à l'indice " ++ str m ++ ".")
                   true (Some m)) ;;
          ret tt
        else
          b <- getitem arr m ;;
          if b <? x then
            b' <- getitem arr m ;;
            yield (mkStep g d m "<"
                     (str b' ++ " < " ++ str x
                        ++ " → on va à DROITE (g ← m+1 = "
                        ++ str (m + 1) ++ ").")
                     false None) ;;
            find_any_loop fuel' arr x (m + 1) d
          else
            b' <- getitem arr m ;;
            yield (mkStep g d m ">"
                     (str b' ++ " > " ++ str x
                        ++ " → on va à GAUCHE (d ← m-1 = "
                        ++ str (m - 1) ++ ").")
                     false None) ;;
            find_any_loop fuel' arr x g (m - 1)
    end
  else
    yield (mkStep g d (if g + d >=? 0 then (g + d) / 2 else 0) "final"
             "Non trouvé." true (Some (-1))).

Definition steps_find_any (arr : list Z) (x : Z) : Gen unit :=
  find_any_loop (List.length arr) arr x 0 (len arr - 1).

Fixpoint first_occurrence_loop (fuel : nat) (arr : list Z) (x g d res : Z)
  : Gen unit :=
  if g <=? d then
    match fuel with
    | O => out_of_fuel
    | S fuel' =>
        let m := (g + d) / 2 in
        a <- getitem arr m ;;
        if a >=? x then
          b <- getitem arr m ;;
          if b =? x then
            yield (mkStep g d m "=="
                     ("Trouvé " ++ str x ++ " à " ++ str m
                        ++ ". On cherche encore plus à GAUCHE.")
                     false None) ;;
            first_occurrence_loop fuel' arr x g (m - 1) m
          else
            b' <- getitem arr m ;;
            yield (mkStep g d m ">="
                     (str b' ++ " >= " ++ str x
                        ++ " sans égalité. On va à GAUCHE.")
                     false None) ;;
            first_occurrence_loop fuel' arr x g (m - 1) res
        else
          a' <- getitem arr m ;;
          yield (mkStep g d m "<"
                   (str a' ++ " < " ++ str x ++ ". On va à DROITE.")
                   false None) ;;
          first_occurrence_loop fuel' arr x (m + 1) d res
    end
  else
    yield (mkStep g d g "final"
             ("Première occurrence = " ++ str res ++ ".")
             true (Some res)).

Definition steps_first_occurrence (arr : list Z) (x : Z) : Gen unit :=
  first_occurrence_loop (List.length arr) arr x 0 (len arr - 1) (-1).

Fixpoint last_occurrence_loop (fuel : nat) (arr : list Z) (x g d res : Z)
  : Gen unit :=
  if g <=? d then
    match fuel with
    | O => out_of_fuel
    | S fuel' =>
        let m := (g + d) / 2 in
        a <- getitem arr m ;;
        if a <=? x then
          b <- getitem arr m ;;
          if b =? x then
            yield (mkStep g d m "=="
                     ("Trouvé " ++ str x ++ " à " ++ str m
                        ++ ". On cherche encore plus à DROITE.")
                     false None) ;;
            last_occurrence_loop fuel' arr x (m + 1) d m
          else
            b' <- getitem arr m ;;
            yield (mkStep g d m "<="
                     (str b' ++ " <= " ++ str x
                        ++ " sans égalité. On va à DROITE.")
                     false None) ;;
            last_occurrence_loop fuel' arr x (m + 1) d res
        else
          a' <- getitem arr m ;;
          yield (mkStep g d m ">"
                   (str a' ++ " > " ++ str x ++ ". On va à GAUCHE.")
                   false None) ;;
          last_occurrence_loop fuel' arr x g (m - 1) res
    end
  else
    yield (mkStep g d d "final"
             ("Dernière occurrence = " ++ str res ++ ".")
             true (Some res)).

Definition steps_last_occurrence (arr : list Z) (x : Z) : Gen unit :=
  last_occurrence_loop (List.length arr) arr x 0 (len arr - 1) (-1).

Fixpoint bisect_left_loop (fuel : nat) (arr : list Z) (x g d : Z) : Gen unit :=
  if g <? d then
    match fuel with
    | O => out_of_fuel
    | S fuel' =>
        let m := (g + d) / 2 in
        a <- getitem arr m ;;
        if a <? x then
          a' <- getitem arr m ;;
          yield (mkStep g (d - 1) m "<"
                   (str a' ++ " < " ++ str x
                      ++ " → g ← m+1 = " ++ str (m + 1) ++ ".")
                   false None) ;;
          bisect_left_loop fuel' arr x (m + 1) d
        else
          a' <- getitem arr m ;;
          yield (mkStep g (d - 1) m ">="
                   (str a' ++ " >= " ++ str x
                      ++ " → d ← m = " ++ str m ++ ".")
                   false None) ;;
          bisect_left_loop fuel' arr x g m
    end
  else
    yield (mkStep g (d - 1) g "final"
             ("Position d'insertion (gauche) = " ++ str g ++ ".")
             true (Some g)).

Definition steps_bisect_left (arr : list Z) (x : Z) : Gen unit :=
  bisect_left_loop (List.length arr) arr x 0 (len arr).

Fixpoint bisect_right_loop (fuel : nat) (arr : list Z) (x g d : Z) : Gen unit :=
  if g <? d then
    match fuel with
    | O => out_of_fuel
    | S fuel' =>
        let m := (g + d) / 2 in
        a <- getitem arr m ;;
        if a <=? x then
          a' <- getitem arr m ;;
          yield (mkStep g (d - 1) m "<="
                   (str a' ++ " <= " ++ str x
                      ++ " → g ← m+1 = " ++ str (m + 1) ++ ".")
                   false None) ;;
          bisect_right_loop fuel' arr x (m + 1) d
        else
          a' <- getitem arr m ;;
          yield (mkStep g (d - 1) m ">"
                   (str a' ++ " > " ++ str x
                      ++ " → d ← m = " ++ str m ++ ".")
                   false None) ;;
          bisect_right_loop fuel' arr x g m
    end
  else
    yield (mkStep g (d - 1) g "final"
             ("Position d'insertion (droite) = " ++ str g ++ ".")
             true (Some g)).

Definition steps_bisect_right (arr : list Z) (x : Z) : Gen unit :=
  bisect_right_loop (List.length arr) arr x 0 (len arr).

(* ================================================================== *)
(** ** Session runner *)

(** The result computed by the [for st in generator(arr, x)] loop of
    [run_steps]: [result] starts at [None] and is overwritten by the
    payload of every step whose [done] flag is set.  Drawing and pausing
    do not touch it.  An exception of the generator propagates. *)
Definition run_steps_result (steps : list Step) : option Z :=
  fold_left (fun result st => if done st then payload st else result)
            steps None.

Definition run_steps (arr : list Z) (x : Z)
    (generator : list Z -> Z -> Gen unit) : outcome (option Z) :=
  match generator arr x with
  | (t, Return _) => Return (run_steps_result (steps_of t))
  | (_, Raise e) => Raise e
  | (_, OutOfFuel) => OutOfFuel
  end.

(** The summary ("Bilan") printed by [run_count_occurrences]: either the
    absent message, which reports 0 occurrences and the range [-1, -1],
    or the range [first, last] and the count. *)
Inductive Bilan : Type :=
| Absent
| Plage (first : Z) (last : option Z) (count : Z).

Definition run_count_occurrences (arr : list Z) (x : Z) : outcome Bilan :=
  match run_steps arr x steps_first_occurrence with
  | Return first =>
      match run_steps arr x steps_last_occurrence with
      | Return last =>
          Return
            (match first with
             | None => Absent
             | Some f =>
                 if f =? -1 then Absent
                 else
                   let count :=
                     match last with
                     | None => 0
                     | Some l => if l <? f then 0 else l - f + 1
                     end in
                   Plage f last count
             end)
      | Raise e => Raise e
      | OutOfFuel => OutOfFuel
      end
  | Raise e => Raise e
  | OutOfFuel => OutOfFuel
  end.

(** The line feed of ["\n"]. *)
Definition nl : string := String (Ascii.ascii_of_nat 10) EmptyString.

(** [str] of an optional integer, as an f-string prints it. *)
Definition str_opt (o : option Z) : string :=
  match o with Some z => str z | None => "None" end.

(** The text handed to [print] for a summary. *)
Definition bilan_text (x : Z) (b : Bilan) : string :=
  match b with
  | Absent =>
      "x=" ++ str x ++ " absent : 0 occurrence." ++ nl
        ++ "Plage = [-1, -1]" ++ nl
  | Plage f l c =>
      "Plage: [" ++ str f ++ ", " ++ str_opt l
        ++ "] → Nombre d'occurrences = " ++ str c ++ nl
  end.

(** The count and the range a summary reports. *)
Definition bilan_count (b : Bilan) : Z :=
  match b with Absent => 0 | Plage _ _ c => c end.

Definition bilan_range (b : Bilan) : option Z * option Z :=
  match b with
  | Absent => (Some (-1), Some (-1))
  | Plage f l _ => (Some f, l)
  end.

(* ================================================================== *)
(** ** Specification vocabulary *)

(** [SortedSequence]: for all [i < j], [seq[i] <= seq[j]]. *)
Definition sorted (arr : list Z) : Prop :=
  forall i j, 0 <= i -> i <= j -> j < len arr -> item arr i <= item arr j.

(** A decision procedure for [sorted], comparing neighbours. *)
Fixpoint sortedb (arr : list Z) : bool :=
  match arr with
  | [] => true
  | a :: tl =>
      match tl with
      | [] => true
      | b :: _ => (a <=? b) && sortedb tl
      end
  end.

(** [i] is an occurrence of [x]. *)
Definition occurs_at (arr : list Z) (x i : Z) : Prop :=
  0 <= i < len arr /\ item arr i = x.

(** Number of cells strictly below, resp. at most, [x]. *)
Definition count_lt (arr : list Z) (x : Z) : Z :=
  Z.of_nat (List.length (filter (fun a => a <? x) arr)).

Definition count_le (arr : list Z) (x : Z) : Z :=
  Z.of_nat (List.length (filter (fun a => a <=? x) arr)).

(** The step a trace ends with. *)
Fixpoint terminal (t : list Step) : option Step :=
  match t with
  | [] => None
  | s :: t' => match terminal t' with None => Some s | last => last end
  end.

(** Size of the closed interval [[left, right]] a step displays. *)
Definition width (s : Step) : Z := right s - left s + 1.


(** Consecutive steps display strictly smaller intervals. *)
Definition shrinks (s1 s2 : Step) : Prop := width s2 < width s1.

(** A well-formed run over [arr] from an interval of [size] cells: every
    read is in bounds, every yielded step displays the current interval,
    a step that is not final is followed by a run on an interval at most
    half as large, and the run stops at its first [done] step. *)
Inductive run_ok (arr : list Z) : Z -> list event -> Prop :=
| run_done s size :
    done s = true -> width s = size -> 0 <= size ->
    run_ok arr size [Yield s]
| run_read i size t :
    0 <= i < len arr -> run_ok arr size t ->
    run_ok arr size (Read i :: t)
| run_iter s size size' t :
    done s = false -> width s = size -> 1 <= size ->
    0 <= 2 * size' <= size -> run_ok arr size' t ->
    run_ok arr size (Yield s :: t).

(** Number of steps of a run from an interval of [size] cells. *)
Definition max_steps (size : Z) : Z :=
  if size <=? 0 then 1 else Z.log2 size + 2.

(** A run that returns normally and whose last step is [done] with
    payload [p]. *)
Definition ends_with (c : Gen unit) (p : Z) : Prop :=
  result c = Return tt
  /\ exists st, terminal (trace c) = Some st
                /\ done st = true /\ payload st = Some p.

(** The five variants of the trace engine. *)
Definition generators : list (list Z -> Z -> Gen unit) :=
  [steps_find_any; steps_first_occurrence; steps_last_occurrence;
   steps_bisect_left; steps_bisect_right].

(** A generator run on [arr] is well formed and returns normally. *)
Definition well_formed (arr : list Z) (c : Gen unit) : Prop :=
  run_ok arr (len arr) (fst c) /\ snd c = Return tt.

(* ================================================================== *)
(** ** Display helpers and the range runner *)

(** [_slice_window(n, left, right, cols, min_cells)]: the indices
    [[i0, i1]] of the cells to display. *)
Definition _slice_window (n left right cols min_cells : Z) : Z * Z :=
  let cell_w := 6 in
  let max_cells := Z.max min_cells ((cols - 8) / cell_w) in
  if n <=? max_cells then (0, n - 1)
  else
    let seg_center := (left + right) / 2 in
    let half := max_cells / 2 in
    let i0 := Z.max 0 (seg_center - half) in
    let i1 := Z.min (n - 1) (i0 + max_cells - 1) in
    let i0 := if i1 - i0 + 1 <? max_cells
              then Z.max 0 (i1 - max_cells + 1) else i0 in
    (i0, i1).

(** The window [draw_array] computes for a step, for a terminal of
    [cols] columns: [_slice_window(n, max(0,left), max(0,right), cols)]
    with the default [min_cells = 8]. *)
Definition draw_window (arr : list Z) (left right cols : Z) : Z * Z :=
  _slice_window (len arr) (Z.max 0 left) (Z.max 0 right) cols 8.

(** The marker [draw_array] puts under the cell of index [i]; a chained
    comparison [a == b == c] is [a == b and b == c]. *)
Definition mark (i left right mid : Z) : string :=
  if (i =? left) && (left =? right) && (right =? mid) then "LMR"
  else if (i =? left) && (left =? right) then "LR "
  else if (i =? left) && (left =? mid) then "LM "
  else if (i =? right) && (right =? mid) then "MR "
  else if i =? left then "L  "
  else if i =? right then "R  "
  else if i =? mid then " M "
  else "   ".

(** [range(lo, hi)]. *)
Definition py_range (lo hi : Z) : list Z :=
  map (fun k => lo + Z.of_nat k) (seq 0 (Z.to_nat (hi - lo))).

(** The list [markers] that [draw_array] builds for a step: one marker
    per displayed index, [for i in range(i0, i1 + 1)]. *)
Definition draw_markers (arr : list Z) (left right mid cols : Z)
  : list string :=
  let (i0, i1) := draw_window arr left right cols in
  map (fun i => mark i left right mid) (py_range i0 (i1 + 1)).

(** Whether a letter appears in a marker. *)
Fixpoint has_letter (c : Ascii.ascii) (s : string) : bool :=
  match s with
  | EmptyString => false
  | String c' s' => Ascii.eqb c c' || has_letter c s'
  end.

(** The summary printed by [run_range_first_last]: the absent message,
    which reports [-1, -1], or the range [first, last]. *)
Inductive Range : Type :=
| RangeAbsent
| RangePlage (first : Z) (last : option Z).

Definition run_range_first_last (arr : list Z) (x : Z) : outcome Range :=
  match run_steps arr x steps_first_occurrence with
  | Return first =>
      match run_steps arr x steps_last_occurrence with
      | Return last =>
          Return
            (match first with
             | None => RangeAbsent
             | Some f => if f =? -1 then RangeAbsent else RangePlage f last
             end)
      | Raise e => Raise e
      | OutOfFuel => OutOfFuel
      end
  | Raise e => Raise e
  | OutOfFuel => OutOfFuel
  end.

(** The text handed to [print] for a range summary. *)
Definition range_text (x : Z) (r : Range) : string :=
  match r with
  | RangeAbsent => "x=" ++ str x ++ " absent : [-1, -1]" ++ nl
  | RangePlage f l => "Plage = [" ++ str f ++ ", " ++ str_opt l ++ "]" ++ nl
  end.

(* ================================================================== *)
(** ** Vocabulary for the steps of a trace *)

(** The last step of the run is [done] and carries payload [p]. *)
Definition yields_payload (c : Gen unit) (p : Z) : Prop :=
  exists st, terminal (trace c) = Some st
             /\ done st = true /\ payload st = Some p.

(** Number of cells equal to [x]. *)
Definition count_eq (arr : list Z) (x : Z) : Z :=
  Z.of_nat (List.length (filter (fun a => a =? x) arr)).

(** The interval a step displays lies in [[lo, hi]]. *)
Definition within (lo hi : Z) (s : Step) : Prop :=
  lo <= left s /\ right s <= hi.

(** The interval of [s2] lies in the interval of [s1]. *)
Definition nested (s1 s2 : Step) : Prop :=
  left s1 <= left s2 /\ right s2 <= right s1.

(** What a relation tag says of the probed cell [a] and the key [x];
    nothing holds of an unknown tag. *)
Definition relation_holds (r : string) (a x : Z) : Prop :=
  if String.eqb r "<" then a < x
  else if String.eqb r ">" then a > x
  else if String.eqb r "==" then a = x
  else if String.eqb r "<=" then a <= x
  else if String.eqb r ">=" then a >= x
  else False.

(** A step is the final one, or it probes a cell of the displayed
    interval, at its middle (or one past it), and its tag is true of
    that cell. *)
Definition probe_ok (arr : list Z) (x : Z) (s : Step) : Prop :=
  relation s = "final"
  \/ (0 <= left s /\ left s <= mid s /\ mid s <= right s
      /\ right s < len arr
      /\ (left s + right s) / 2 <= mid s <= (left s + right s) / 2 + 1
      /\ relation_holds (relation s) (item arr (mid s)) x).

(** The three facts kept along a trace: every step is a truthful probe
    or the final step, every step displays an interval inside
    [[lo, hi]], and every step's interval contains those of all later
    steps. *)
Definition steps_inv (arr : list Z) (x lo hi : Z) (t : list Step) : Prop :=
  Forall (probe_ok arr x) t
  /\ Forall (within lo hi) t
  /\ StronglySorted nested t.

(* ================================================================== *)
(** ** Monad and list lemmas *)

Section GenLemmas.
Context {A : Type}.
Variable arr : list Z.

Lemma getitem_in_bounds i :
  0 <= i < len arr -> getitem arr i = ([Read i], Return (item arr i)).
Proof.
  intros Hi. unfold getitem.
  replace ((0 <=? i) && (i <? len arr)) with true; [reflexivity|].
  symmetry. apply andb_true_iff. split; [apply Z.leb_le | apply Z.ltb_lt]; lia.
Qed.

Lemma bind_getitem i (k : Z -> Gen A) :
  0 <= i < len arr ->
  bind (getitem arr i) k
  = (Read i :: fst (k (item arr i)), snd (k (item arr i))).
Proof. intros Hi. rewrite getitem_in_bounds by assumption. reflexivity. Qed.

Lemma bind_yield s (k : unit -> Gen A) :
  bind (yield s) k = (Yield s :: fst (k tt), snd (k tt)).
Proof. reflexivity. Qed.

Lemma trace_read i (t : list event) (o : outcome A) :
  trace (Read i :: t, o) = trace (t, o).
Proof. reflexivity. Qed.

Lemma trace_yield s (t : list event) (o : outcome A) :
  trace (Yield s :: t, o) = s :: trace (t, o).
Proof. reflexivity. Qed.

Lemma surjective_gen (c : Gen A) : (fst c, snd c) = c.
Proof. destruct c; reflexivity. Qed.
End GenLemmas.

Lemma terminal_snoc pre st : terminal (pre ++ [st]) = Some st.
Proof.
  induction pre as [|s pre IH]; simpl; [reflexivity|].
  rewrite IH. reflexivity.
Qed.

Lemma run_steps_result_snoc pre st :
  Forall (fun s => done s = false) pre -> done st = true ->
  run_steps_result (pre ++ [st]) = payload st.
Proof.
  intros Hpre Hst. unfold run_steps_result.
  rewrite fold_left_app. simpl. rewrite Hst. reflexivity.
Qed.

Lemma log2_half a b : 1 <= a -> 2 * a <= b -> Z.log2 a + 1 <= Z.log2 b.
Proof.
  intros Ha Hab.
  pose proof (Z.log2_double a) as Hd.
  pose proof (Z.log2_le_mono (2 * a) b Hab) as Hm.
  lia.
Qed.

Lemma max_steps_half a b :
  1 <= b -> 0 <= 2 * a <= b -> 1 + max_steps a <= max_steps b.
Proof.
  intros Hb Ha. unfold max_steps.
  destruct (Z.leb_spec a 0), (Z.leb_spec b 0); try lia.
  - pose proof (Z.log2_nonneg b). lia.
  - pose proof (log2_half a b). lia.
Qed.

Lemma max_steps_mono a b : a <= b -> max_steps a <= max_steps b.
Proof.
  intros Hab. unfold max_steps.
  destruct (Z.leb_spec a 0), (Z.leb_spec b 0); try lia.
  - pose proof (Z.log2_nonneg b). lia.
  - pose proof (Z.log2_le_mono a b). lia.
Qed.

(* ================================================================== *)
(** ** What a well-formed run guarantees *)

Section RunOk.
Variable arr : list Z.

Lemma run_ok_size size t : run_ok arr size t -> 0 <= size.
Proof. induction 1; lia. Qed.

Lemma run_ok_reads size t :
  run_ok arr size t -> Forall (fun i => 0 <= i < len arr) (reads_of t).
Proof. induction 1; simpl; auto. Qed.

(** The steps are a non-empty list whose last element alone is [done]. *)
Lemma run_ok_shape size t :
  run_ok arr size t ->
  exists pre st,
    steps_of t = (pre ++ [st])%list
    /\ Forall (fun s => done s = false) pre
    /\ done st = true.
Proof.
  induction 1 as [s size Hd Hw Hs | i size t Hi Hr IH
                 | s size size' t Hd Hw Hs Hh Hr IH]; simpl.
  - exists [], s. auto.
  - exact IH.
  - destruct IH as (pre & st & -> & Hpre & Hst).
    exists (s :: pre), st. auto.
Qed.

Lemma run_ok_head size t :
  run_ok arr size t ->
  exists s rest, steps_of t = s :: rest /\ width s = size.
Proof. induction 1; simpl; eauto. Qed.

Lemma run_ok_length size t :
  run_ok arr size t -> Z.of_nat (List.length (steps_of t)) <= max_steps size.
Proof.
  induction 1 as [s size Hd Hw Hs | i size t Hi Hr IH
                 | s size size' t Hd Hw Hs Hh Hr IH]; simpl steps_of.
  - unfold max_steps. simpl List.length.
    destruct (Z.leb_spec size 0); [lia|].
    pose proof (Z.log2_nonneg size). lia.
  - exact IH.
  - pose proof (max_steps_half size' size Hs Hh).
    simpl List.length. lia.
Qed.

Lemma run_ok_shrinks size t :
  run_ok arr size t -> Sorted.Sorted shrinks (steps_of t).
Proof.
  induction 1 as [s size Hd Hw Hs | i size t Hi Hr IH
                 | s size size' t Hd Hw Hs Hh Hr IH]; simpl.
  - repeat constructor.
  - exact IH.
  - constructor; [exact IH|].
    destruct (run_ok_head _ _ Hr) as (s' & rest & -> & Hw').
    constructor. unfold shrinks. lia.
Qed.
End RunOk.

(* ================================================================== *)
(** ** Every generator produces a well-formed run *)

Lemma mid_bounds g d : g <= d -> g <= (g + d) / 2 <= d.
Proof. intros H. split; Z.to_euclidean_division_equations; lia. Qed.

Lemma mid_bounds_strict g d : g < d -> g <= (g + d) / 2 < d.
Proof. intros H. split; Z.to_euclidean_division_equations; lia. Qed.

(** Unfolds the reads and the yield at the head of a loop body. *)
Ltac step_body Hm :=
  repeat (rewrite (bind_getitem _ _ _ Hm) || rewrite bind_yield
          || cbn [fst snd]).

(** Closes [run_ok] for one iteration: the reads, the yielded step and
    the recursive run. *)
Ltac run_iteration IH :=
  split;
  [ repeat (apply run_read; [lia|]);
    first
      [ apply run_done; [reflexivity | unfold width; cbn; lia | lia]
      | eapply run_iter;
        [ reflexivity | unfold width; cbn; lia | lia
        | | apply IH; Z.to_euclidean_division_equations; lia ];
        Z.to_euclidean_division_equations; lia ]
  | first [ reflexivity | apply IH; Z.to_euclidean_division_equations; lia ] ].

Lemma find_any_loop_ok arr x fuel : forall g d,
  0 <= g -> d < len arr -> g <= d + 1 -> d - g + 1 <= Z.of_nat fuel ->
  run_ok arr (d - g + 1) (fst (find_any_loop fuel arr x g d))
  /\ snd (find_any_loop fuel arr x g d) = Return tt.
Proof.
  induction fuel as [|fuel IH]; intros g d Hg Hd Hgd Hf;
    cbn [find_any_loop]; destruct (Z.leb_spec g d) as [Hle|Hgt]; try lia.
  - split; [|reflexivity]. apply run_done; [reflexivity | unfold width; cbn; lia | lia].
  - pose proof (mid_bounds g d Hle) as Hmid.
    assert (Hm : 0 <= (g + d) / 2 < len arr) by lia.
    cbv zeta. step_body Hm.
    destruct (item arr ((g + d) / 2) =? x); step_body Hm.
    + run_iteration IH.
    + destruct (item arr ((g + d) / 2) <? x); step_body Hm; run_iteration IH.
  - split; [|reflexivity].
    apply run_done; [reflexivity | unfold width; cbn; lia | lia].
Qed.

Lemma first_occurrence_loop_ok arr x fuel : forall g d res,
  0 <= g -> d < len arr -> g <= d + 1 -> d - g + 1 <= Z.of_nat fuel ->
  run_ok arr (d - g + 1) (fst (first_occurrence_loop fuel arr x g d res))
  /\ snd (first_occurrence_loop fuel arr x g d res) = Return tt.
Proof.
  induction fuel as [|fuel IH]; intros g d res Hg Hd Hgd Hf;
    cbn [first_occurrence_loop]; destruct (Z.leb_spec g d) as [Hle|Hgt];
    try lia.
  - split; [|reflexivity].
    apply run_done; [reflexivity | unfold width; cbn; lia | lia].
  - pose proof (mid_bounds g d Hle) as Hmid.
    assert (Hm : 0 <= (g + d) / 2 < len arr) by lia.
    cbv zeta. step_body Hm.
    destruct (item arr ((g + d) / 2) >=? x); step_body Hm.
    + destruct (item arr ((g + d) / 2) =? x); step_body Hm; run_iteration IH.
    + run_iteration IH.
  - split; [|reflexivity].
    apply run_done; [reflexivity | unfold width; cbn; lia | lia].
Qed.

Lemma last_occurrence_loop_ok arr x fuel : forall g d res,
  0 <= g -> d < len arr -> g <= d + 1 -> d - g + 1 <= Z.of_nat fuel ->
  run_ok arr (d - g + 1) (fst (last_occurrence_loop fuel arr x g d res))
  /\ snd (last_occurrence_loop fuel arr x g d res) = Return tt.
Proof.
  induction fuel as [|fuel IH]; intros g d res Hg Hd Hgd Hf;
    cbn [last_occurrence_loop]; destruct (Z.leb_spec g d) as [Hle|Hgt];
    try lia.
  - split; [|reflexivity].
    apply run_done; [reflexivity | unfold width; cbn; lia | lia].
  - pose proof (mid_bounds g d Hle) as Hmid.
    assert (Hm : 0 <= (g + d) / 2 < len arr) by lia.
    cbv zeta. step_body Hm.
    destruct (item arr ((g + d) / 2) <=? x); step_body Hm.
    + destruct (item arr ((g + d) / 2) =? x); step_body Hm; run_iteration IH.
    + run_iteration IH.
  - split; [|reflexivity].
    apply run_done; [reflexivity | unfold width; cbn; lia | lia].
Qed.

Lemma bisect_left_loop_ok arr x fuel : forall g d,
  0 <= g -> d <= len arr -> g <= d -> d - g <= Z.of_nat fuel ->
  run_ok arr (d - g) (fst (bisect_left_loop fuel arr x g d))
  /\ snd (bisect_left_loop fuel arr x g d) = Return tt.
Proof.
  induction fuel as [|fuel IH]; intros g d Hg Hd Hgd Hf;
    cbn [bisect_left_loop]; destruct (Z.ltb_spec g d) as [Hlt|Hge];
    try lia.
  - split; [|reflexivity].
    apply run_done; [reflexivity | unfold width; cbn; lia | lia].
  - pose proof (mid_bounds_strict g d Hlt) as Hmid.
    assert (Hm : 0 <= (g + d) / 2 < len arr) by lia.
    cbv zeta. step_body Hm.
    destruct (item arr ((g + d) / 2) <? x); step_body Hm; run_iteration IH.
  - split; [|reflexivity].
    apply run_done; [reflexivity | unfold width; cbn; lia | lia].
Qed.

Lemma bisect_right_loop_ok arr x fuel : forall g d,
  0 <= g -> d <= len arr -> g <= d -> d - g <= Z.of_nat fuel ->
  run_ok arr (d - g) (fst (bisect_right_loop fuel arr x g d))
  /\ snd (bisect_right_loop fuel arr x g d) = Return tt.
Proof.
  induction fuel as [|fuel IH]; intros g d Hg Hd Hgd Hf;
    cbn [bisect_right_loop]; destruct (Z.ltb_spec g d) as [Hlt|Hge];
    try lia.
  - split; [|reflexivity].
    apply run_done; [reflexivity | unfold width; cbn; lia | lia].
  - pose proof (mid_bounds_strict g d Hlt) as Hmid.
    assert (Hm : 0 <= (g + d) / 2 < len arr) by lia.
    cbv zeta. step_body Hm.
    destruct (item arr ((g + d) / 2) <=? x); step_body Hm; run_iteration IH.
  - split; [|reflexivity].
    apply run_done; [reflexivity | unfold width; cbn; lia | lia].
Qed.

(* ================================================================== *)
(** ** Functional correctness of the loops on a sorted list *)

Lemma terminal_cons s t st :
  terminal t = Some st -> terminal (s :: t) = Some st.
Proof. intros H. simpl. rewrite H. reflexivity. Qed.

Lemma terminal_last t st :
  terminal t = Some st -> exists pre, t = (pre ++ [st])%list.
Proof.
  revert st. induction t as [|s t IH]; intros st H; [discriminate|].
  simpl in H. destruct (terminal t) as [st'|] eqn:Ht.
  - destruct (IH st' eq_refl) as [pre ->]. injection H as <-.
    exists (s :: pre). reflexivity.
  - destruct t as [|s' t'].
    + injection H as <-. exists []. reflexivity.
    + simpl in Ht. destruct (terminal t'); discriminate.
Qed.

Section Correctness.
Variable arr : list Z.
Variable x : Z.
Hypothesis arr_sorted : sorted arr.

(** Instantiates sortedness at the pairs [(i, j)] and [(j, i)]. *)
Ltac by_sorted i j :=
  pose proof (arr_sorted i j); pose proof (arr_sorted j i); lia.

Lemma find_any_loop_terminal fuel : forall g d,
  0 <= g -> d < len arr -> g <= d + 1 -> d - g + 1 <= Z.of_nat fuel ->
  (forall i, occurs_at arr x i -> g <= i <= d) ->
  exists st p,
    terminal (steps_of (fst (find_any_loop fuel arr x g d))) = Some st
    /\ done st = true /\ payload st = Some p
    /\ (occurs_at arr x p \/ p = -1 /\ forall i, ~ occurs_at arr x i).
Proof.
  induction fuel as [|fuel IH]; intros g d Hg Hd Hgd Hf Hinv;
    cbn [find_any_loop]; destruct (Z.leb_spec g d) as [Hle|Hgt]; try lia.
  - eexists _, _. cbn. repeat split. right. split; [reflexivity|].
    intros i Hi. apply Hinv in Hi. lia.
  - pose proof (mid_bounds g d Hle) as Hmid.
    assert (Hm : 0 <= (g + d) / 2 < len arr) by lia.
    cbv zeta. step_body Hm.
    destruct (Z.eqb_spec (item arr ((g + d) / 2)) x) as [He|Hne];
      step_body Hm.
    + eexists _, _. cbn. repeat split. left. split; assumption.
    + destruct (Z.ltb_spec (item arr ((g + d) / 2)) x) as [Hlt|Hge];
        step_body Hm; cbn [steps_of].
      * destruct (IH ((g + d) / 2 + 1) d) as (st & p & Ht & Hp);
          try lia.
        { intros i Hi. pose proof (Hinv i Hi). destruct Hi as [Hb Hi].
          by_sorted i ((g + d) / 2). }
        exists st, p. split; [apply terminal_cons; exact Ht | exact Hp].
      * destruct (IH g ((g + d) / 2 - 1)) as (st & p & Ht & Hp);
          try lia.
        { intros i Hi. pose proof (Hinv i Hi). destruct Hi as [Hb Hi].
          by_sorted i ((g + d) / 2). }
        exists st, p. split; [apply terminal_cons; exact Ht | exact Hp].
  - eexists _, _. cbn. repeat split. right. split; [reflexivity|].
    intros i Hi. apply Hinv in Hi. lia.
Qed.

Lemma first_occurrence_loop_terminal fuel : forall g d res,
  0 <= g -> d < len arr -> g <= d + 1 -> d - g + 1 <= Z.of_nat fuel ->
  (forall i, 0 <= i < g -> item arr i < x) ->
  (forall i, d < i < len arr -> x <= item arr i) ->
  (d + 1 < len arr /\ item arr (d + 1) = x /\ res = d + 1
   \/ (d + 1 < len arr -> item arr (d + 1) <> x) /\ res = -1) ->
  exists st,
    terminal (steps_of (fst (first_occurrence_loop fuel arr x g d res)))
    = Some st
    /\ done st = true
    /\ exists p, payload st = Some p
       /\ (occurs_at arr x p /\ (forall j, occurs_at arr x j -> p <= j)
           \/ p = -1 /\ forall i, ~ occurs_at arr x i).
Proof.
  induction fuel as [|fuel IH]; intros g d res Hg Hd Hgd Hf Hlo Hhi Hres;
    cbn [first_occurrence_loop]; destruct (Z.leb_spec g d) as [Hle|Hgt];
    try lia.
  1, 3:
    eexists; cbn; repeat split; eexists; split; [reflexivity|];
    assert (g = d + 1) by lia; subst g;
    destruct Hres as [(Hb & He & ->) | (Hn & ->)];
    [ left; split; [split; [lia | exact He]|];
      intros j [Hj Hjx]; destruct (Z.lt_ge_cases j (d + 1)); [|lia];
      specialize (Hlo j); lia
    | right; split; [reflexivity|]; intros i [Hi Hix];
      destruct (Z.lt_ge_cases i (d + 1)); [specialize (Hlo i); lia|];
      specialize (Hhi (d + 1)); by_sorted (d + 1) i ].
  pose proof (mid_bounds g d Hle) as Hmid.
  assert (Hm : 0 <= (g + d) / 2 < len arr) by lia.
  cbv zeta. step_body Hm.
  destruct (Z.geb_spec (item arr ((g + d) / 2)) x) as [Hge|Hlt];
    step_body Hm.
  - destruct (Z.eqb_spec (item arr ((g + d) / 2)) x) as [He|Hne];
      step_body Hm; cbn [steps_of].
    + destruct (IH g ((g + d) / 2 - 1) ((g + d) / 2)) as (st & Ht & Hp);
        try lia.
      { intros i Hi. apply Hlo. lia. }
      { intros i Hi. by_sorted ((g + d) / 2) i. }
      { left. replace ((g + d) / 2 - 1 + 1) with ((g + d) / 2) by lia.
        repeat split; [lia | exact He]. }
      exists st. split; [apply terminal_cons; exact Ht | exact Hp].
    + destruct (IH g ((g + d) / 2 - 1) res) as (st & Ht & Hp); try lia.
      { intros i Hi. apply Hlo. lia. }
      { intros i Hi. by_sorted ((g + d) / 2) i. }
      { right. replace ((g + d) / 2 - 1 + 1) with ((g + d) / 2) by lia.
        split; [intros _; exact Hne|].
        destruct Hres as [(Hb & Hx & _) | (_ & ->)]; [|reflexivity].
        by_sorted ((g + d) / 2) (d + 1). }
      exists st. split; [apply terminal_cons; exact Ht | exact Hp].
  - cbn [steps_of].
    destruct (IH ((g + d) / 2 + 1) d res) as (st & Ht & Hp); try lia.
    { intros i Hi. by_sorted i ((g + d) / 2). }
    { exact Hhi. }
    exists st. split; [apply terminal_cons; exact Ht | exact Hp].
Qed.

Lemma last_occurrence_loop_terminal fuel : forall g d res,
  0 <= g -> d < len arr -> g <= d + 1 -> d - g + 1 <= Z.of_nat fuel ->
  (forall i, 0 <= i < g -> item arr i <= x) ->
  (forall i, d < i < len arr -> x < item arr i) ->
  (0 <= g - 1 /\ item arr (g - 1) = x /\ res = g - 1
   \/ (0 <= g - 1 -> item arr (g - 1) <> x) /\ res = -1) ->
  exists st,
    terminal (steps_of (fst (last_occurrence_loop fuel arr x g d res)))
    = Some st
    /\ done st = true
    /\ exists p, payload st = Some p
       /\ (occurs_at arr x p /\ (forall j, occurs_at arr x j -> j <= p)
           \/ p = -1 /\ forall i, ~ occurs_at arr x i).
Proof.
  induction fuel as [|fuel IH]; intros g d res Hg Hd Hgd Hf Hlo Hhi Hres;
    cbn [last_occurrence_loop]; destruct (Z.leb_spec g d) as [Hle|Hgt];
    try lia.
  1, 3:
    eexists; cbn; repeat split; eexists; split; [reflexivity|];
    assert (d = g - 1) by lia; subst d;
    destruct Hres as [(Hb & He & ->) | (Hn & ->)];
    [ left; split; [split; [lia | exact He]|];
      intros j [Hj Hjx]; destruct (Z.lt_ge_cases (g - 1) j); [|lia];
      specialize (Hhi j); lia
    | right; split; [reflexivity|]; intros i [Hi Hix];
      destruct (Z.lt_ge_cases (g - 1) i); [specialize (Hhi i); lia|];
      specialize (Hlo (g - 1)); by_sorted i (g - 1) ].
  pose proof (mid_bounds g d Hle) as Hmid.
  assert (Hm : 0 <= (g + d) / 2 < len arr) by lia.
  cbv zeta. step_body Hm.
  destruct (Z.leb_spec (item arr ((g + d) / 2)) x) as [Hle'|Hgt'];
    step_body Hm.
  - destruct (Z.eqb_spec (item arr ((g + d) / 2)) x) as [He|Hne];
      step_body Hm; cbn [steps_of].
    + destruct (IH ((g + d) / 2 + 1) d ((g + d) / 2)) as (st & Ht & Hp);
        try lia.
      { intros i Hi. by_sorted i ((g + d) / 2). }
      { intros i Hi. apply Hhi. lia. }
      { left. replace ((g + d) / 2 + 1 - 1) with ((g + d) / 2) by lia.
        repeat split; [lia | exact He]. }
      exists st. split; [apply terminal_cons; exact Ht | exact Hp].
    + destruct (IH ((g + d) / 2 + 1) d res) as (st & Ht & Hp); try lia.
      { intros i Hi. by_sorted i ((g + d) / 2). }
      { intros i Hi. apply Hhi. lia. }
      { right. replace ((g + d) / 2 + 1 - 1) with ((g + d) / 2) by lia.
        split; [intros _; exact Hne|].
        destruct Hres as [(Hb & Hx & _) | (_ & ->)]; [|reflexivity].
        by_sorted (g - 1) ((g + d) / 2). }
      exists st. split; [apply terminal_cons; exact Ht | exact Hp].
  - cbn [steps_of].
    destruct (IH g ((g + d) / 2 - 1) res) as (st & Ht & Hp); try lia.
    { exact Hlo. }
    { intros i Hi. by_sorted ((g + d) / 2) i. }
    exists st. split; [apply terminal_cons; exact Ht | exact Hp].
Qed.

Lemma bisect_left_loop_terminal fuel : forall g d,
  0 <= g -> d <= len arr -> g <= d -> d - g <= Z.of_nat fuel ->
  (forall i, 0 <= i < g -> item arr i < x) ->
  (forall i, d <= i < len arr -> x <= item arr i) ->
  exists st p,
    terminal (steps_of (fst (bisect_left_loop fuel arr x g d))) = Some st
    /\ done st = true /\ payload st = Some p
    /\ 0 <= p <= len arr
    /\ (forall i, 0 <= i < p -> item arr i < x)
    /\ (forall i, p <= i < len arr -> x <= item arr i).
Proof.
  induction fuel as [|fuel IH]; intros g d Hg Hd Hgd Hf Hlo Hhi;
    cbn [bisect_left_loop]; destruct (Z.ltb_spec g d) as [Hlt|Hge];
    try lia.
  1, 3:
    assert (d = g) by lia; subst d;
    eexists _, _; cbn; repeat split; solve [lia | assumption].
  pose proof (mid_bounds_strict g d Hlt) as Hmid.
  assert (Hm : 0 <= (g + d) / 2 < len arr) by lia.
  cbv zeta. step_body Hm.
  destruct (Z.ltb_spec (item arr ((g + d) / 2)) x) as [Hlt'|Hge'];
    step_body Hm; cbn [steps_of].
  - destruct (IH ((g + d) / 2 + 1) d) as (st & p & Ht & Hp); try lia.
    { intros i Hi. by_sorted i ((g + d) / 2). }
    { exact Hhi. }
    exists st, p. split; [apply terminal_cons; exact Ht | exact Hp].
  - destruct (IH g ((g + d) / 2)) as (st & p & Ht & Hp); try lia.
    { exact Hlo. }
    { intros i Hi. by_sorted ((g + d) / 2) i. }
    exists st, p. split; [apply terminal_cons; exact Ht | exact Hp].
Qed.

Lemma bisect_right_loop_terminal fuel : forall g d,
  0 <= g -> d <= len arr -> g <= d -> d - g <= Z.of_nat fuel ->
  (forall i, 0 <= i < g -> item arr i <= x) ->
  (forall i, d <= i < len arr -> x < item arr i) ->
  exists st p,
    terminal (steps_of (fst (bisect_right_loop fuel arr x g d))) = Some st
    /\ done st = true /\ payload st = Some p
    /\ 0 <= p <= len arr
    /\ (forall i, 0 <= i < p -> item arr i <= x)
    /\ (forall i, p <= i < len arr -> x < item arr i).
Proof.
  induction fuel as [|fuel IH]; intros g d Hg Hd Hgd Hf Hlo Hhi;
    cbn [bisect_right_loop]; destruct (Z.ltb_spec g d) as [Hlt|Hge];
    try lia.
  1, 3:
    assert (d = g) by lia; subst d;
    eexists _, _; cbn; repeat split; solve [lia | assumption].
  pose proof (mid_bounds_strict g d Hlt) as Hmid.
  assert (Hm : 0 <= (g + d) / 2 < len arr) by lia.
  cbv zeta. step_body Hm.
  destruct (Z.leb_spec (item arr ((g + d) / 2)) x) as [Hle'|Hgt'];
    step_body Hm; cbn [steps_of].
  - destruct (IH ((g + d) / 2 + 1) d) as (st & p & Ht & Hp); try lia.
    { intros i Hi. by_sorted i ((g + d) / 2). }
    { exact Hhi. }
    exists st, p. split; [apply terminal_cons; exact Ht | exact Hp].
  - destruct (IH g ((g + d) / 2)) as (st & p & Ht & Hp); try lia.
    { exact Hlo. }
    { intros i Hi. by_sorted ((g + d) / 2) i. }
    exists st, p. split; [apply terminal_cons; exact Ht | exact Hp].
Qed.
End Correctness.

(* ================================================================== *)
(** ** Lists seen through [item] *)

Lemma len_nonneg arr : 0 <= len arr.
Proof. unfold len. lia. Qed.

Lemma len_cons a tl : len (a :: tl) = len tl + 1.
Proof. unfold len. simpl List.length. lia. Qed.

Lemma item_cons a tl i : 0 <= i -> item (a :: tl) (i + 1) = item tl i.
Proof.
  intros Hi. unfold item.
  replace (Z.to_nat (i + 1)) with (S (Z.to_nat i)) by lia. reflexivity.
Qed.

Lemma item_pred a tl j : 1 <= j -> item (a :: tl) j = item tl (j - 1).
Proof.
  intros Hj. replace j with (j - 1 + 1) at 1 by lia. apply item_cons. lia.
Qed.

Lemma occurs_iff_In arr x : (exists i, occurs_at arr x i) <-> In x arr.
Proof.
  unfold occurs_at, item, len. split.
  - intros (i & Hi & <-). apply nth_In. lia.
  - intros Hin. destruct (In_nth arr x 0 Hin) as (n & Hn & Hx).
    exists (Z.of_nat n). rewrite Nat2Z.id. split; [lia | exact Hx].
Qed.

Lemma absent_iff_not_In arr x : (forall i, ~ occurs_at arr x i) <-> ~ In x arr.
Proof.
  rewrite <- occurs_iff_In. split.
  - intros H (i & Hi). exact (H i Hi).
  - intros H i Hi. apply H. exists i. exact Hi.
Qed.

(** A list split at [p] by a predicate has [p] cells satisfying it. *)
Lemma partition_count (f : Z -> bool) arr : forall p,
  0 <= p <= len arr ->
  (forall i, 0 <= i < p -> f (item arr i) = true) ->
  (forall i, p <= i < len arr -> f (item arr i) = false) ->
  Z.of_nat (List.length (filter f arr)) = p.
Proof.
  induction arr as [|a tl IH]; intros p Hp Hlo Hhi.
  - unfold len in Hp. simpl in *. lia.
  - rewrite len_cons in Hp, Hhi. simpl filter.
    pose proof (len_nonneg tl) as Hn.
    destruct (Z.eq_dec p 0) as [->|Hne].
    + assert (H0 : f a = false) by (apply (Hhi 0); lia).
      rewrite H0.
      apply IH; [lia | intros; lia |].
      intros i Hi. rewrite <- (item_cons a) by lia. apply Hhi. lia.
    + assert (H0 : f a = true) by (apply (Hlo 0); lia).
      rewrite H0. simpl List.length.
      rewrite Nat2Z.inj_succ.
      rewrite (IH (p - 1)); [lia | lia | |].
      * intros i Hi. rewrite <- (item_cons a) by lia. apply Hlo. lia.
      * intros i Hi. rewrite <- (item_cons a) by lia. apply Hhi. lia.
Qed.

Lemma sorted_cons a tl :
  sorted tl -> (forall j, 0 <= j < len tl -> a <= item tl j) ->
  sorted (a :: tl).
Proof.
  intros Hs Ha i j Hi Hij Hj. rewrite len_cons in Hj.
  destruct (Z.eq_dec i 0) as [->|Hi0].
  - change (item (a :: tl) 0) with a.
    destruct (Z.eq_dec j 0) as [->|Hj0]; [reflexivity|].
    rewrite item_pred by lia. apply Ha. lia.
  - rewrite (item_pred a tl i), (item_pred a tl j) by lia.
    apply Hs; lia.
Qed.

Lemma sortedb_sound arr : sortedb arr = true -> sorted arr.
Proof.
  induction arr as [|a tl IH]; intros H.
  - intros i j Hi Hij Hj. unfold len in Hj. simpl in Hj. lia.
  - destruct tl as [|b tl'].
    + apply sorted_cons.
      * intros i j Hi Hij Hj. unfold len in Hj. simpl in Hj. lia.
      * intros j Hj. unfold len in Hj. simpl in Hj. lia.
    + cbn [sortedb] in H. apply andb_true_iff in H. destruct H as [Hab Htl].
      apply Z.leb_le in Hab. specialize (IH Htl).
      apply sorted_cons; [exact IH|].
      intros j Hj. pose proof (IH 0 j). change (item (b :: tl') 0) with b in *.
      lia.
Qed.

(* ================================================================== *)
(** ** The generators as a whole *)

Lemma steps_find_any_ok arr x : well_formed arr (steps_find_any arr x).
Proof.
  pose proof (find_any_loop_ok arr x (List.length arr) 0 (len arr - 1)) as H.
  replace (len arr - 1 - 0 + 1) with (len arr) in H by lia.
  apply H; unfold len; lia.
Qed.

Lemma steps_first_occurrence_ok arr x :
  well_formed arr (steps_first_occurrence arr x).
Proof.
  pose proof (first_occurrence_loop_ok arr x (List.length arr)
                0 (len arr - 1) (-1)) as H.
  replace (len arr - 1 - 0 + 1) with (len arr) in H by lia.
  apply H; unfold len; lia.
Qed.

Lemma steps_last_occurrence_ok arr x :
  well_formed arr (steps_last_occurrence arr x).
Proof.
  pose proof (last_occurrence_loop_ok arr x (List.length arr)
                0 (len arr - 1) (-1)) as H.
  replace (len arr - 1 - 0 + 1) with (len arr) in H by lia.
  apply H; unfold len; lia.
Qed.

Lemma steps_bisect_left_ok arr x : well_formed arr (steps_bisect_left arr x).
Proof.
  pose proof (bisect_left_loop_ok arr x (List.length arr) 0 (len arr)) as H.
  replace (len arr - 0) with (len arr) in H by lia.
  apply H; unfold len; lia.
Qed.

Lemma steps_bisect_right_ok arr x : well_formed arr (steps_bisect_right arr x).
Proof.
  pose proof (bisect_right_loop_ok arr x (List.length arr) 0 (len arr)) as H.
  replace (len arr - 0) with (len arr) in H by lia.
  apply H; unfold len; lia.
Qed.

Lemma generators_ok :
  Forall (fun gen => forall arr x, well_formed arr (gen arr x)) generators.
Proof.
  unfold generators. repeat apply Forall_cons; [.. | apply Forall_nil].
  - exact steps_find_any_ok.
  - exact steps_first_occurrence_ok.
  - exact steps_last_occurrence_ok.
  - exact steps_bisect_left_ok.
  - exact steps_bisect_right_ok.
Qed.

(** [run_steps] returns the payload a run ends with. *)
Lemma ends_with_run_steps gen arr x p :
  ends_with (gen arr x) p -> run_steps arr x gen = Return (Some p).
Proof.
  unfold ends_with, result, trace, run_steps.
  destruct (gen arr x) as [t o]. cbn [fst snd].
  intros (-> & st & Ht & Hd & Hp).
  destruct (terminal_last _ _ Ht) as [pre ->].
  unfold run_steps_result. rewrite fold_left_app. cbn.
  rewrite Hd, Hp. reflexivity.
Qed.

Lemma ends_with_unique c p q : ends_with c p -> ends_with c q -> p = q.
Proof.
  intros (_ & st & Ht & _ & Hp) (_ & st' & Ht' & _ & Hq). congruence.
Qed.

Section Specs.
Variable arr : list Z.
Variable x : Z.
Hypothesis arr_sorted : sorted arr.

Lemma steps_find_any_spec :
  exists p, ends_with (steps_find_any arr x) p
    /\ (occurs_at arr x p \/ p = -1 /\ forall i, ~ occurs_at arr x i).
Proof.
  destruct (find_any_loop_terminal arr x arr_sorted (List.length arr)
              0 (len arr - 1)) as (st & p & Ht & Hd & Hp & Hpost);
    try solve [unfold len; lia | intros i [Hi _]; lia].
  exists p. split; [|exact Hpost].
  split; [apply steps_find_any_ok|]. exists st. auto.
Qed.

Lemma steps_first_occurrence_spec :
  exists p, ends_with (steps_first_occurrence arr x) p
    /\ (occurs_at arr x p /\ (forall j, occurs_at arr x j -> p <= j)
        \/ p = -1 /\ forall i, ~ occurs_at arr x i).
Proof.
  destruct (first_occurrence_loop_terminal arr x arr_sorted
              (List.length arr) 0 (len arr - 1) (-1))
    as (st & Ht & Hd & p & Hp & Hpost); try solve [unfold len; lia | intros i Hi; lia
              | right; split; [lia | reflexivity]].
  exists p. split; [|exact Hpost].
  split; [apply steps_first_occurrence_ok|]. exists st. auto.
Qed.

Lemma steps_last_occurrence_spec :
  exists p, ends_with (steps_last_occurrence arr x) p
    /\ (occurs_at arr x p /\ (forall j, occurs_at arr x j -> j <= p)
        \/ p = -1 /\ forall i, ~ occurs_at arr x i).
Proof.
  destruct (last_occurrence_loop_terminal arr x arr_sorted
              (List.length arr) 0 (len arr - 1) (-1))
    as (st & Ht & Hd & p & Hp & Hpost); try solve [unfold len; lia | intros i Hi; lia
              | right; split; [lia | reflexivity]].
  exists p. split; [|exact Hpost].
  split; [apply steps_last_occurrence_ok|]. exists st. auto.
Qed.

Lemma steps_bisect_left_spec :
  exists p, ends_with (steps_bisect_left arr x) p
    /\ 0 <= p <= len arr
    /\ (forall i, 0 <= i < p -> item arr i < x)
    /\ (forall i, p <= i < len arr -> x <= item arr i).
Proof.
  destruct (bisect_left_loop_terminal arr x arr_sorted (List.length arr)
              0 (len arr)) as (st & p & Ht & Hd & Hp & Hpost);
    try solve [unfold len; lia | intros i Hi; lia
              | right; split; [lia | reflexivity]].
  exists p. split; [|exact Hpost].
  split; [apply steps_bisect_left_ok|]. exists st. auto.
Qed.

Lemma steps_bisect_right_spec :
  exists p, ends_with (steps_bisect_right arr x) p
    /\ 0 <= p <= len arr
    /\ (forall i, 0 <= i < p -> item arr i <= x)
    /\ (forall i, p <= i < len arr -> x < item arr i).
Proof.
  destruct (bisect_right_loop_terminal arr x arr_sorted (List.length arr)
              0 (len arr)) as (st & p & Ht & Hd & Hp & Hpost);
    try solve [unfold len; lia | intros i Hi; lia
              | right; split; [lia | reflexivity]].
  exists p. split; [|exact Hpost].
  split; [apply steps_bisect_right_ok|]. exists st. auto.
Qed.
End Specs.

(* ================================================================== *)
(** ** Properties of the trace engine *)

(** C4 — Termination and step count.  For each of the five generators and
    every list (sorted or not) and key, the run returns normally within
    its budget of [len(arr)] iterations, its trace has at most
    [log2(n) + 2] steps (at most [log2(n) + 1] loop iterations and the
    final step), and from each step to the next the displayed interval
    [[left, right]] strictly shrinks. *)
Theorem termination_and_step_count :
  Forall (fun gen => forall arr x,
            result (gen arr x) = Return tt
            /\ Z.of_nat (List.length (trace (gen arr x)))
               <= Z.log2 (len arr) + 2
            /\ Sorted shrinks (trace (gen arr x)))
         generators.
Proof.
  eapply Forall_impl; [|exact generators_ok].
  intros gen Hgen arr x. destruct (Hgen arr x) as [Hrun Hret].
  split; [exact Hret|]. split.
  - pose proof (run_ok_length _ _ _ Hrun) as Hl.
    unfold trace. unfold max_steps in Hl.
    destruct (Z.leb_spec (len arr) 0); [|exact Hl].
    pose proof (Z.log2_nonneg (len arr)). lia.
  - exact (run_ok_shrinks _ _ _ Hrun).
Qed.

(** C5 — Trace shape.  For each of the five generators and every list and
    key, the trace is a possibly empty list of steps with [done = false]
    followed by exactly one step with [done = true]: it is non-empty, it
    has exactly one [done] step, and that step is the last one. *)
Theorem trace_ends_with_single_done :
  Forall (fun gen => forall arr x,
            exists pre st,
              trace (gen arr x) = (pre ++ [st])%list
              /\ Forall (fun s => done s = false) pre
              /\ done st = true)
         generators.
Proof.
  eapply Forall_impl; [|exact generators_ok].
  intros gen Hgen arr x. destruct (Hgen arr x) as [Hrun _].
  exact (run_ok_shape _ _ _ Hrun).
Qed.

(** C8 — Empty input.  On the empty list each generator reads no cell and
    yields exactly one step, the final one, with [done = true] and
    payload [-1] for presence, first and last occurrence and payload [0]
    for both bisect variants. *)
Theorem empty_input_final_only (x : Z) :
  steps_find_any [] x
  = ([Yield (mkStep 0 (-1) 0 "final" "Non trouvé." true (Some (-1)))],
     Return tt)
  /\ steps_first_occurrence [] x
     = ([Yield (mkStep 0 (-1) 0 "final" "Première occurrence = -1."
                  true (Some (-1)))], Return tt)
  /\ steps_last_occurrence [] x
     = ([Yield (mkStep 0 (-1) (-1) "final" "Dernière occurrence = -1."
                  true (Some (-1)))], Return tt)
  /\ steps_bisect_left [] x
     = ([Yield (mkStep 0 (-1) 0 "final" "Position d'insertion (gauche) = 0."
                  true (Some 0))], Return tt)
  /\ steps_bisect_right [] x
     = ([Yield (mkStep 0 (-1) 0 "final" "Position d'insertion (droite) = 0."
                  true (Some 0))], Return tt).
Proof. repeat split. Qed.

(** C10 — Index safety.  For each of the five generators, every list
    (sorted or not) and every key, the run raises no exception and every
    index at which it evaluates [arr[m]] satisfies [0 <= m < len(arr)]. *)
Theorem reads_in_bounds :
  Forall (fun gen => forall arr x,
            result (gen arr x) = Return tt
            /\ Forall (fun m => 0 <= m < len arr) (reads (gen arr x)))
         generators.
Proof.
  eapply Forall_impl; [|exact generators_ok].
  intros gen Hgen arr x. destruct (Hgen arr x) as [Hrun Hret].
  split; [exact Hret | exact (run_ok_reads _ _ _ Hrun)].
Qed.

(** C1 — Presence correctness.  On a sorted list the presence search
    returns normally and its terminal step is [done] with a payload [p]
    that is an index holding the key when the key occurs in the list,
    and [-1] when no cell equals the key. *)
Theorem presence_correct (arr : list Z) (k : Z) :
  sorted arr ->
  exists p,
    ends_with (steps_find_any arr k) p
    /\ (In k arr -> occurs_at arr k p)
    /\ (~ In k arr -> p = -1).
Proof.
  intros Hs.
  destruct (steps_find_any_spec arr k Hs) as (p & He & Hpost).
  exists p. split; [exact He|].
  destruct Hpost as [Hocc | [-> Habs]].
  - split; [intros _; exact Hocc|].
    intros Hn. exfalso. apply Hn. apply occurs_iff_In. exists p. exact Hocc.
  - split; [|reflexivity].
    intros Hin. apply occurs_iff_In in Hin. destruct Hin as [i Hi].
    exfalso. exact (Habs i Hi).
Qed.

Lemma presence_correct_witness :
  sorted [3; 5; 9; 9; 10; 12; 12; 14; 17; 18]
  /\ exists p,
       ends_with (steps_find_any [3; 5; 9; 9; 10; 12; 12; 14; 17; 18] 9) p
       /\ (In 9 [3; 5; 9; 9; 10; 12; 12; 14; 17; 18]
           -> occurs_at [3; 5; 9; 9; 10; 12; 12; 14; 17; 18] 9 p)
       /\ (~ In 9 [3; 5; 9; 9; 10; 12; 12; 14; 17; 18] -> p = -1).
Proof.
  split; [apply sortedb_sound; reflexivity|].
  apply (presence_correct [3; 5; 9; 9; 10; 12; 12; 14; 17; 18] 9).
  apply sortedb_sound. reflexivity.
Defined.

(** C2 — Occurrence correctness.  On a sorted list, first_occurrence ends
    with the smallest index holding the key and last_occurrence with the
    largest one; both end with [-1] when the key does not occur. *)
Theorem occurrence_correct (arr : list Z) (k : Z) :
  sorted arr ->
  exists f l,
    ends_with (steps_first_occurrence arr k) f
    /\ ends_with (steps_last_occurrence arr k) l
    /\ (In k arr ->
        occurs_at arr k f /\ occurs_at arr k l
        /\ forall i, occurs_at arr k i -> f <= i <= l)
    /\ (~ In k arr -> f = -1 /\ l = -1).
Proof.
  intros Hs.
  destruct (steps_first_occurrence_spec arr k Hs) as (f & Hf & Hfp).
  destruct (steps_last_occurrence_spec arr k Hs) as (l & Hl & Hlp).
  exists f, l. split; [exact Hf|]. split; [exact Hl|]. split.
  - intros Hin. apply occurs_iff_In in Hin. destruct Hin as [i Hi].
    destruct Hfp as [[Hfo Hfm] | [_ Habs]]; [|exfalso; exact (Habs i Hi)].
    destruct Hlp as [[Hlo Hlm] | [_ Habs]]; [|exfalso; exact (Habs i Hi)].
    split; [exact Hfo|]. split; [exact Hlo|].
    intros j Hj. split; [apply Hfm | apply Hlm]; exact Hj.
  - intros Hn. rewrite <- absent_iff_not_In in Hn.
    destruct Hfp as [[Hfo _] | [-> _]]; [exfalso; exact (Hn f Hfo)|].
    destruct Hlp as [[Hlo _] | [-> _]]; [exfalso; exact (Hn l Hlo)|].
    split; reflexivity.
Qed.

Lemma occurrence_correct_witness :
  sorted [1; 1; 2; 2; 2; 3; 3; 5; 8; 8; 13; 21]
  /\ exists f l,
       ends_with (steps_first_occurrence
                    [1; 1; 2; 2; 2; 3; 3; 5; 8; 8; 13; 21] 2) f
       /\ ends_with (steps_last_occurrence
                       [1; 1; 2; 2; 2; 3; 3; 5; 8; 8; 13; 21] 2) l
       /\ (In 2 [1; 1; 2; 2; 2; 3; 3; 5; 8; 8; 13; 21] ->
           occurs_at [1; 1; 2; 2; 2; 3; 3; 5; 8; 8; 13; 21] 2 f
           /\ occurs_at [1; 1; 2; 2; 2; 3; 3; 5; 8; 8; 13; 21] 2 l
           /\ forall i,
                occurs_at [1; 1; 2; 2; 2; 3; 3; 5; 8; 8; 13; 21] 2 i ->
                f <= i <= l)
       /\ (~ In 2 [1; 1; 2; 2; 2; 3; 3; 5; 8; 8; 13; 21]
           -> f = -1 /\ l = -1).
Proof.
  split; [apply sortedb_sound; reflexivity|].
  apply (occurrence_correct [1; 1; 2; 2; 2; 3; 3; 5; 8; 8; 13; 21] 2).
  apply sortedb_sound. reflexivity.
Defined.

(** C3 — Bisect correctness.  On a sorted list of length [n], bisect_left
    ends with the number of cells strictly below the key, bisect_right
    with the number of cells at most the key, and both payloads lie
    between [0] and [n]. *)
Theorem bisect_correct (arr : list Z) (k : Z) :
  sorted arr ->
  exists bl br,
    ends_with (steps_bisect_left arr k) bl
    /\ ends_with (steps_bisect_right arr k) br
    /\ bl = count_lt arr k
    /\ br = count_le arr k
    /\ 0 <= bl <= len arr
    /\ 0 <= br <= len arr.
Proof.
  intros Hs.
  destruct (steps_bisect_left_spec arr k Hs) as (bl & Hl & Hlb & Hl1 & Hl2).
  destruct (steps_bisect_right_spec arr k Hs) as (br & Hr & Hrb & Hr1 & Hr2).
  exists bl, br. split; [exact Hl|]. split; [exact Hr|].
  split; [|split; [|lia]].
  - symmetry. apply partition_count; [exact Hlb | |].
    + intros i Hi. apply Z.ltb_lt. apply Hl1. exact Hi.
    + intros i Hi. apply Z.ltb_ge. apply Hl2. exact Hi.
  - symmetry. apply partition_count; [exact Hrb | |].
    + intros i Hi. apply Z.leb_le. apply Hr1. exact Hi.
    + intros i Hi. apply Z.leb_gt. apply Hr2. exact Hi.
Qed.

Lemma bisect_correct_witness :
  sorted [3; 5; 9; 9; 10; 12; 12; 14; 17; 18]
  /\ exists bl br,
       ends_with (steps_bisect_left
                    [3; 5; 9; 9; 10; 12; 12; 14; 17; 18] 9) bl
       /\ ends_with (steps_bisect_right
                       [3; 5; 9; 9; 10; 12; 12; 14; 17; 18] 9) br
       /\ bl = count_lt [3; 5; 9; 9; 10; 12; 12; 14; 17; 18] 9
       /\ br = count_le [3; 5; 9; 9; 10; 12; 12; 14; 17; 18] 9
       /\ 0 <= bl <= len [3; 5; 9; 9; 10; 12; 12; 14; 17; 18]
       /\ 0 <= br <= len [3; 5; 9; 9; 10; 12; 12; 14; 17; 18].
Proof.
  split; [apply sortedb_sound; reflexivity|].
  apply (bisect_correct [3; 5; 9; 9; 10; 12; 12; 14; 17; 18] 9).
  apply sortedb_sound. reflexivity.
Defined.

(** Insertion points and occurrences: [bl] splits the list into the cells
    below the key and the others, [br] into the cells at most the key
    and the others. *)
Section InsertionPoints.
Variable arr : list Z.
Variable k bl br : Z.
Hypothesis arr_sorted : sorted arr.
Hypothesis bl_range : 0 <= bl <= len arr.
Hypothesis br_range : 0 <= br <= len arr.
Hypothesis bl_below : forall i, 0 <= i < bl -> item arr i < k.
Hypothesis bl_above : forall i, bl <= i < len arr -> k <= item arr i.
Hypothesis br_below : forall i, 0 <= i < br -> item arr i <= k.
Hypothesis br_above : forall i, br <= i < len arr -> k < item arr i.

Lemma insertion_points_ordered : bl <= br.
Proof.
  destruct (Z.lt_ge_cases br bl) as [Hlt|Hge]; [|lia].
  specialize (bl_below br). specialize (br_above br). lia.
Qed.

Lemma insertion_points_equal_iff :
  bl = br <-> forall i, ~ occurs_at arr k i.
Proof.
  split.
  - intros Heq i [Hi Hx].
    destruct (Z.lt_ge_cases i bl) as [Hlt|Hge].
    + specialize (bl_below i). lia.
    + specialize (br_above i). lia.
  - intros Habs. pose proof insertion_points_ordered as Hle.
    destruct (Z.eq_dec bl br) as [Heq|Hne]; [exact Heq|].
    exfalso. apply (Habs bl). split; [lia|].
    specialize (bl_above bl). specialize (br_below bl). lia.
Qed.

Lemma first_is_left_insertion_point f :
  occurs_at arr k f -> (forall j, occurs_at arr k j -> f <= j) -> f = bl.
Proof.
  intros [Hf Hfx] Hmin.
  assert (bl <= f).
  { destruct (Z.lt_ge_cases f bl) as [Hlt|Hge]; [|lia].
    specialize (bl_below f). lia. }
  assert (Hocc : occurs_at arr k bl).
  { split; [lia|]. specialize (bl_above bl).
    pose proof (arr_sorted bl f). lia. }
  specialize (Hmin bl Hocc). lia.
Qed.

Lemma last_is_right_insertion_point l :
  occurs_at arr k l -> (forall j, occurs_at arr k j -> j <= l) ->
  l = br - 1.
Proof.
  intros [Hl Hlx] Hmax.
  assert (l < br).
  { destruct (Z.lt_ge_cases l br) as [Hlt|Hge]; [lia|].
    specialize (br_above l). lia. }
  assert (Hocc : occurs_at arr k (br - 1)).
  { split; [lia|]. specialize (br_below (br - 1)).
    pose proof (arr_sorted l (br - 1)). lia. }
  specialize (Hmax (br - 1) Hocc). lia.
Qed.
End InsertionPoints.

(** C6 — Bisect ordering law.  On a sorted list the payload of bisect_left
    is at most the payload of bisect_right, and the two are equal exactly
    when the key does not occur in the list. *)
Theorem bisect_ordering (arr : list Z) (k : Z) :
  sorted arr ->
  exists bl br,
    ends_with (steps_bisect_left arr k) bl
    /\ ends_with (steps_bisect_right arr k) br
    /\ bl <= br
    /\ (bl = br <-> ~ In k arr).
Proof.
  intros Hs.
  destruct (steps_bisect_left_spec arr k Hs) as (bl & Hl & Hlb & Hl1 & Hl2).
  destruct (steps_bisect_right_spec arr k Hs) as (br & Hr & Hrb & Hr1 & Hr2).
  exists bl, br. split; [exact Hl|]. split; [exact Hr|]. split.
  - apply (insertion_points_ordered arr k bl br); assumption.
  - rewrite <- absent_iff_not_In.
    apply (insertion_points_equal_iff arr k bl br); assumption.
Qed.

Lemma bisect_ordering_witness :
  sorted [3; 5; 9; 9; 10; 12; 12; 14; 17; 18]
  /\ exists bl br,
       ends_with (steps_bisect_left
                    [3; 5; 9; 9; 10; 12; 12; 14; 17; 18] 11) bl
       /\ ends_with (steps_bisect_right
                       [3; 5; 9; 9; 10; 12; 12; 14; 17; 18] 11) br
       /\ bl <= br
       /\ (bl = br <-> ~ In 11 [3; 5; 9; 9; 10; 12; 12; 14; 17; 18]).
Proof.
  split; [apply sortedb_sound; reflexivity|].
  apply (bisect_ordering [3; 5; 9; 9; 10; 12; 12; 14; 17; 18] 11).
  apply sortedb_sound. reflexivity.
Defined.

(** C7 — Count identity.  On a sorted list [run_count_occurrences]
    produces a summary whose count (0 in the absent case, otherwise
    [last - first + 1] when [last >= first], else 0) equals the payload
    of bisect_right minus the payload of bisect_left; when the key does
    not occur the summary is the absent one, with range [-1, -1]. *)
Theorem count_identity (arr : list Z) (k : Z) :
  sorted arr ->
  exists b bl br,
    run_count_occurrences arr k = Return b
    /\ ends_with (steps_bisect_left arr k) bl
    /\ ends_with (steps_bisect_right arr k) br
    /\ bilan_count b = br - bl
    /\ (~ In k arr ->
        b = Absent /\ bilan_range b = (Some (-1), Some (-1))).
Proof.
  intros Hs.
  destruct (steps_bisect_left_spec arr k Hs) as (bl & Hl & Hlb & Hl1 & Hl2).
  destruct (steps_bisect_right_spec arr k Hs) as (br & Hr & Hrb & Hr1 & Hr2).
  destruct (steps_first_occurrence_spec arr k Hs) as (f & Hf & Hfp).
  destruct (steps_last_occurrence_spec arr k Hs) as (l & Hlast & Hlp).
  assert (Heq : bl = br <-> forall i, ~ occurs_at arr k i)
    by (apply (insertion_points_equal_iff arr k bl br); assumption).
  unfold run_count_occurrences.
  rewrite (ends_with_run_steps _ _ _ _ Hf).
  rewrite (ends_with_run_steps _ _ _ _ Hlast).
  destruct Hfp as [[Hfo Hfm] | [-> Habs]].
  - destruct Hlp as [[Hlo Hlm] | [_ Habs]]; [|exfalso; exact (Habs f Hfo)].
    assert (Hfb : f = bl)
      by (apply (first_is_left_insertion_point arr k bl); assumption).
    assert (Hlr : l = br - 1)
      by (apply (last_is_right_insertion_point arr k br); assumption).
    assert (Hle : bl <= br)
      by (apply (insertion_points_ordered arr k bl br); assumption).
    assert (bl <> br).
    { intros E. exact (proj1 Heq E f Hfo). }
    destruct (Z.eqb_spec f (-1)) as [E|_]; [lia|].
    destruct (Z.ltb_spec l f) as [E|_]; [lia|].
    eexists _, bl, br. split; [reflexivity|].
    split; [exact Hl|]. split; [exact Hr|]. split; [cbn; lia|].
    intros Hn. exfalso. apply Hn. apply occurs_iff_In. exists f. exact Hfo.
  - cbn. exists Absent, bl, br. split; [reflexivity|].
    split; [exact Hl|]. split; [exact Hr|].
    apply (proj2 Heq) in Habs. split; [cbn; lia|].
    intros _. split; reflexivity.
Qed.

Lemma count_identity_witness :
  sorted [1; 1; 2; 2; 2; 3; 3; 5; 8; 8; 13; 21]
  /\ exists b bl br,
       run_count_occurrences [1; 1; 2; 2; 2; 3; 3; 5; 8; 8; 13; 21] 2
       = Return b
       /\ ends_with (steps_bisect_left
                       [1; 1; 2; 2; 2; 3; 3; 5; 8; 8; 13; 21] 2) bl
       /\ ends_with (steps_bisect_right
                       [1; 1; 2; 2; 2; 3; 3; 5; 8; 8; 13; 21] 2) br
       /\ bilan_count b = br - bl
       /\ (~ In 2 [1; 1; 2; 2; 2; 3; 3; 5; 8; 8; 13; 21] ->
           b = Absent /\ bilan_range b = (Some (-1), Some (-1))).
Proof.
  split; [apply sortedb_sound; reflexivity|].
  apply (count_identity [1; 1; 2; 2; 2; 3; 3; 5; 8; 8; 13; 21] 2).
  apply sortedb_sound. reflexivity.
Defined.

(** The final step of the presence loop: the bounds have crossed, and
    the synthetic [mid] is the guarded midpoint. *)
Lemma find_any_loop_final arr x fuel : forall g d,
  0 <= g -> -1 <= d -> d < len arr ->
  forall st,
    terminal (steps_of (fst (find_any_loop fuel arr x g d))) = Some st ->
    relation st = "final" ->
    left st > right st /\ 0 <= left st /\ -1 <= right st
    /\ mid st = (if left st + right st >=? 0
                 then (left st + right st) / 2 else 0).
Proof.
  induction fuel as [|fuel IH]; intros g d Hg Hd Hlen;
    cbn [find_any_loop]; destruct (Z.leb_spec g d) as [Hle|Hgt].
  - cbn. discriminate.
  - cbn. intros st [= <-] _. cbn [left right mid].
    split; [lia|]. split; [lia|]. split; [lia | reflexivity].
  - pose proof (mid_bounds g d Hle) as Hmid.
    assert (Hm : 0 <= (g + d) / 2 < len arr) by lia.
    cbv zeta. step_body Hm.
    destruct (item arr ((g + d) / 2) =? x); step_body Hm.
    + cbn. intros st [= <-]. cbn. discriminate.
    + destruct (item arr ((g + d) / 2) <? x); step_body Hm;
        cbn [steps_of terminal]; intros st Hst Hrel.
      * destruct (terminal _) as [st'|] eqn:Ht in Hst;
          injection Hst as <-; [|discriminate Hrel].
        refine (IH _ _ _ _ _ _ Ht Hrel); lia.
      * destruct (terminal _) as [st'|] eqn:Ht in Hst;
          injection Hst as <-; [|discriminate Hrel].
        refine (IH _ _ _ _ _ _ Ht Hrel); lia.
  - cbn. intros st [= <-] _. cbn [left right mid].
    split; [lia|]. split; [lia|]. split; [lia | reflexivity].
Qed.

(** C9 as the specification states it fails: the search for 3 in [[5]]
    ends with [left = 0], [right = -1], hence [left + right < 0], on a
    list that is not empty. *)
Lemma presence_negative_sum_on_nonempty :
  exists st,
    terminal (trace (steps_find_any [5] 3)) = Some st
    /\ relation st = "final"
    /\ left st > right st
    /\ left st + right st < 0
    /\ [5] <> @nil Z.
Proof.
  eexists. split; [reflexivity|]. cbn.
  repeat split; try lia; discriminate.
Qed.

(** C9, amended — When the presence search ends on a final step with
    [left + right < 0], the bounds are [left = 0] and [right = -1]
    (the empty input, or a non-empty input left through its lower end)
    and the synthetic [mid] of the final step is [0]. *)
Theorem presence_final_mid_zero (arr : list Z) (x : Z) (st : Step) :
  terminal (trace (steps_find_any arr x)) = Some st ->
  relation st = "final" ->
  left st + right st < 0 ->
  left st > right st /\ left st = 0 /\ right st = -1 /\ mid st = 0.
Proof.
  intros Ht Hrel Hneg.
  destruct (find_any_loop_final arr x (List.length arr) 0 (len arr - 1))
    with (st := st) as (Hgt & Hl & Hr & Hmid);
    try (unfold len; lia); try assumption.
  destruct (Z.geb_spec (left st + right st) 0) as [Hge|_]; [lia|].
  repeat split; lia.
Qed.

Lemma presence_final_mid_zero_witness :
  terminal (trace (steps_find_any [5] 3))
  = Some (mkStep 0 (-1) 0 "final" "Non trouvé." true (Some (-1)))
  /\ 0 + -1 < 0
  /\ (0 > -1 /\ 0 = 0 /\ -1 = -1 /\ 0 = 0).
Proof.
  split; [reflexivity|]. split; [lia|].
  apply (presence_final_mid_zero [5] 3
           (mkStep 0 (-1) 0 "final" "Non trouvé." true (Some (-1))));
    [reflexivity | reflexivity | simpl; lia].
Defined.

(* ================================================================== *)
(** ** The iteration budget is immaterial

    Any budget that covers the interval gives the same run. *)

Ltac same_run IH :=
  first
    [ reflexivity
    | erewrite IH;
      [ reflexivity | Z.to_euclidean_division_equations; lia .. ] ].

Lemma find_any_loop_budget arr x fuel : forall fuel' g d,
  0 <= g -> d < len arr ->
  d - g + 1 <= Z.of_nat fuel -> d - g + 1 <= Z.of_nat fuel' ->
  find_any_loop fuel arr x g d = find_any_loop fuel' arr x g d.
Proof.
  induction fuel as [|fuel IH]; intros [|fuel'] g d Hg Hd Hf Hf';
    cbn [find_any_loop]; destruct (Z.leb_spec g d) as [Hle|Hgt];
    try lia; try reflexivity.
  pose proof (mid_bounds g d Hle) as Hmid.
  assert (Hm : 0 <= (g + d) / 2 < len arr) by lia.
  cbv zeta. step_body Hm.
  destruct (item arr ((g + d) / 2) =? x); step_body Hm; [reflexivity|].
  destruct (item arr ((g + d) / 2) <? x); step_body Hm; same_run IH.
Qed.

Lemma first_occurrence_loop_budget arr x fuel : forall fuel' g d res,
  0 <= g -> d < len arr ->
  d - g + 1 <= Z.of_nat fuel -> d - g + 1 <= Z.of_nat fuel' ->
  first_occurrence_loop fuel arr x g d res
  = first_occurrence_loop fuel' arr x g d res.
Proof.
  induction fuel as [|fuel IH]; intros [|fuel'] g d res Hg Hd Hf Hf';
    cbn [first_occurrence_loop]; destruct (Z.leb_spec g d) as [Hle|Hgt];
    try lia; try reflexivity.
  pose proof (mid_bounds g d Hle) as Hmid.
  assert (Hm : 0 <= (g + d) / 2 < len arr) by lia.
  cbv zeta. step_body Hm.
  destruct (item arr ((g + d) / 2) >=? x); step_body Hm;
    [destruct (item arr ((g + d) / 2) =? x); step_body Hm|];
    same_run IH.
Qed.

Lemma last_occurrence_loop_budget arr x fuel : forall fuel' g d res,
  0 <= g -> d < len arr ->
  d - g + 1 <= Z.of_nat fuel -> d - g + 1 <= Z.of_nat fuel' ->
  last_occurrence_loop fuel arr x g d res
  = last_occurrence_loop fuel' arr x g d res.
Proof.
  induction fuel as [|fuel IH]; intros [|fuel'] g d res Hg Hd Hf Hf';
    cbn [last_occurrence_loop]; destruct (Z.leb_spec g d) as [Hle|Hgt];
    try lia; try reflexivity.
  pose proof (mid_bounds g d Hle) as Hmid.
  assert (Hm : 0 <= (g + d) / 2 < len arr) by lia.
  cbv zeta. step_body Hm.
  destruct (item arr ((g + d) / 2) <=? x); step_body Hm;
    [destruct (item arr ((g + d) / 2) =? x); step_body Hm|];
    same_run IH.
Qed.

Lemma bisect_left_loop_budget arr x fuel : forall fuel' g d,
  0 <= g -> d <= len arr ->
  d - g <= Z.of_nat fuel -> d - g <= Z.of_nat fuel' ->
  bisect_left_loop fuel arr x g d = bisect_left_loop fuel' arr x g d.
Proof.
  induction fuel as [|fuel IH]; intros [|fuel'] g d Hg Hd Hf Hf';
    cbn [bisect_left_loop]; destruct (Z.ltb_spec g d) as [Hlt|Hge];
    try lia; try reflexivity.
  pose proof (mid_bounds_strict g d Hlt) as Hmid.
  assert (Hm : 0 <= (g + d) / 2 < len arr) by lia.
  cbv zeta. step_body Hm.
  destruct (item arr ((g + d) / 2) <? x); step_body Hm; same_run IH.
Qed.

Lemma bisect_right_loop_budget arr x fuel : forall fuel' g d,
  0 <= g -> d <= len arr ->
  d - g <= Z.of_nat fuel -> d - g <= Z.of_nat fuel' ->
  bisect_right_loop fuel arr x g d = bisect_right_loop fuel' arr x g d.
Proof.
  induction fuel as [|fuel IH]; intros [|fuel'] g d Hg Hd Hf Hf';
    cbn [bisect_right_loop]; destruct (Z.ltb_spec g d) as [Hlt|Hge];
    try lia; try reflexivity.
  pose proof (mid_bounds_strict g d Hlt) as Hmid.
  assert (Hm : 0 <= (g + d) / 2 < len arr) by lia.
  cbv zeta. step_body Hm.
  destruct (item arr ((g + d) / 2) <=? x); step_body Hm; same_run IH.
Qed.

Lemma generators_budget arr x fuel :
  len arr <= Z.of_nat fuel ->
  find_any_loop fuel arr x 0 (len arr - 1) = steps_find_any arr x
  /\ first_occurrence_loop fuel arr x 0 (len arr - 1) (-1)
     = steps_first_occurrence arr x
  /\ last_occurrence_loop fuel arr x 0 (len arr - 1) (-1)
     = steps_last_occurrence arr x
  /\ bisect_left_loop fuel arr x 0 (len arr) = steps_bisect_left arr x
  /\ bisect_right_loop fuel arr x 0 (len arr) = steps_bisect_right arr x.
Proof.
  intros Hf.
  repeat apply conj;
    [ apply find_any_loop_budget | apply first_occurrence_loop_budget
    | apply last_occurrence_loop_budget | apply bisect_left_loop_budget
    | apply bisect_right_loop_budget ];
    unfold len in *; lia.
Qed.

(* ================================================================== *)
(** ** The scenarios of the specification *)

Example scenario_notes_present :
  run_steps notes 9 steps_find_any = Return (Some 2)
  /\ run_steps notes 9 steps_first_occurrence = Return (Some 2)
  /\ run_steps notes 9 steps_last_occurrence = Return (Some 3)
  /\ run_steps notes 9 steps_bisect_left = Return (Some 2)
  /\ run_steps notes 9 steps_bisect_right = Return (Some 4)
  /\ run_count_occurrences notes 9 = Return (Plage 2 (Some 3) 2).
Proof. repeat split. Qed.

Example scenario_notes_absent :
  run_steps notes 11 steps_find_any = Return (Some (-1))
  /\ run_steps notes 11 steps_first_occurrence = Return (Some (-1))
  /\ run_steps notes 11 steps_last_occurrence = Return (Some (-1))
  /\ run_steps notes 11 steps_bisect_left = Return (Some 5)
  /\ run_steps notes 11 steps_bisect_right = Return (Some 5)
  /\ run_count_occurrences notes 11 = Return Absent.
Proof. repeat split. Qed.

Example scenario_doubles :
  run_steps doubles 2 steps_first_occurrence = Return (Some 2)
  /\ run_steps doubles 2 steps_last_occurrence = Return (Some 4)
  /\ run_steps doubles 2 steps_bisect_left = Return (Some 2)
  /\ run_steps doubles 2 steps_bisect_right = Return (Some 5)
  /\ run_count_occurrences doubles 2 = Return (Plage 2 (Some 4) 3).
Proof. repeat split. Qed.

(* ================================================================== *)
(** ** What every step of a trace says *)

Lemma relation_holds_lt a x : a < x -> relation_holds "<" a x.
Proof. intros H. exact H. Qed.

Lemma relation_holds_gt a x : a > x -> relation_holds ">" a x.
Proof. intros H. exact H. Qed.

Lemma relation_holds_eq a x : a = x -> relation_holds "==" a x.
Proof. intros H. exact H. Qed.

Lemma relation_holds_le a x : a <= x -> relation_holds "<=" a x.
Proof. intros H. exact H. Qed.

Lemma relation_holds_ge a x : a >= x -> relation_holds ">=" a x.
Proof. intros H. exact H. Qed.

Lemma steps_inv_nil arr x lo hi : steps_inv arr x lo hi [].
Proof. repeat split; constructor. Qed.

Lemma steps_inv_cons arr x s t lo hi lo' hi' :
  probe_ok arr x s -> left s = lo -> right s = hi ->
  lo <= lo' -> hi' <= hi ->
  steps_inv arr x lo' hi' t ->
  steps_inv arr x lo hi (s :: t).
Proof.
  intros Hp Hl Hr Hlo Hhi (Hprobe & Hin & Hnest).
  assert (Hmono : Forall (within lo hi) t).
  { eapply Forall_impl; [|exact Hin].
    intros s' [H1 H2]. split; lia. }
  repeat split.
  - constructor; assumption.
  - constructor; [split; lia | exact Hmono].
  - constructor; [exact Hnest|].
    eapply Forall_impl; [|exact Hmono].
    intros s' [H1 H2]. split; lia.
Qed.

Lemma steps_inv_single arr x s lo hi :
  probe_ok arr x s -> left s = lo -> right s = hi ->
  steps_inv arr x lo hi [s].
Proof.
  intros Hp Hl Hr.
  apply (steps_inv_cons arr x s [] lo hi lo hi); try assumption; try lia.
  apply steps_inv_nil.
Qed.

(** Closes [probe_ok] for a step yielded by a loop body. *)
Ltac probe_step :=
  right; cbn [left right mid relation];
  repeat apply conj;
  first
    [ lia
    | Z.to_euclidean_division_equations; lia
    | apply relation_holds_lt; lia
    | apply relation_holds_gt; lia
    | apply relation_holds_eq; lia
    | apply relation_holds_le; lia
    | apply relation_holds_ge; lia ].

(** Closes [steps_inv] for one iteration. *)
Ltac inv_iteration IH :=
  cbn [steps_of];
  first
    [ eapply steps_inv_cons;
      [ probe_step | reflexivity | reflexivity | | | apply IH; lia ];
      cbn [left right]; lia
    | apply steps_inv_single; [ probe_step | reflexivity | reflexivity ] ].

(** Closes [steps_inv] for the final step. *)
Ltac inv_final :=
  cbn; apply steps_inv_single; [ left; reflexivity | reflexivity | reflexivity ].

Lemma find_any_loop_steps arr x fuel : forall g d,
  0 <= g -> d < len arr ->
  steps_inv arr x g d (steps_of (fst (find_any_loop fuel arr x g d))).
Proof.
  induction fuel as [|fuel IH]; intros g d Hg Hd;
    cbn [find_any_loop]; destruct (Z.leb_spec g d) as [Hle|Hgt];
    try inv_final.
  - apply steps_inv_nil.
  - pose proof (mid_bounds g d Hle) as Hmid.
    assert (Hm : 0 <= (g + d) / 2 < len arr) by lia.
    cbv zeta. step_body Hm.
    destruct (Z.eqb_spec (item arr ((g + d) / 2)) x); step_body Hm;
      [inv_iteration IH|].
    destruct (Z.ltb_spec (item arr ((g + d) / 2)) x); step_body Hm;
      inv_iteration IH.
Qed.

Lemma first_occurrence_loop_steps arr x fuel : forall g d res,
  0 <= g -> d < len arr ->
  steps_inv arr x g d
    (steps_of (fst (first_occurrence_loop fuel arr x g d res))).
Proof.
  induction fuel as [|fuel IH]; intros g d res Hg Hd;
    cbn [first_occurrence_loop]; destruct (Z.leb_spec g d) as [Hle|Hgt];
    try inv_final.
  - apply steps_inv_nil.
  - pose proof (mid_bounds g d Hle) as Hmid.
    assert (Hm : 0 <= (g + d) / 2 < len arr) by lia.
    cbv zeta. step_body Hm.
    destruct (Z.geb_spec (item arr ((g + d) / 2)) x); step_body Hm;
      [|inv_iteration IH].
    destruct (Z.eqb_spec (item arr ((g + d) / 2)) x); step_body Hm;
      inv_iteration IH.
Qed.

Lemma last_occurrence_loop_steps arr x fuel : forall g d res,
  0 <= g -> d < len arr ->
  steps_inv arr x g d
    (steps_of (fst (last_occurrence_loop fuel arr x g d res))).
Proof.
  induction fuel as [|fuel IH]; intros g d res Hg Hd;
    cbn [last_occurrence_loop]; destruct (Z.leb_spec g d) as [Hle|Hgt];
    try inv_final.
  - apply steps_inv_nil.
  - pose proof (mid_bounds g d Hle) as Hmid.
    assert (Hm : 0 <= (g + d) / 2 < len arr) by lia.
    cbv zeta. step_body Hm.
    destruct (Z.leb_spec (item arr ((g + d) / 2)) x); step_body Hm;
      [|inv_iteration IH].
    destruct (Z.eqb_spec (item arr ((g + d) / 2)) x); step_body Hm;
      inv_iteration IH.
Qed.

Lemma bisect_left_loop_steps arr x fuel : forall g d,
  0 <= g -> d <= len arr ->
  steps_inv arr x g (d - 1)
    (steps_of (fst (bisect_left_loop fuel arr x g d))).
Proof.
  induction fuel as [|fuel IH]; intros g d Hg Hd;
    cbn [bisect_left_loop]; destruct (Z.ltb_spec g d) as [Hlt|Hge];
    try inv_final.
  - apply steps_inv_nil.
  - pose proof (mid_bounds_strict g d Hlt) as Hmid.
    assert (Hm : 0 <= (g + d) / 2 < len arr) by lia.
    cbv zeta. step_body Hm.
    destruct (Z.ltb_spec (item arr ((g + d) / 2)) x); step_body Hm;
      inv_iteration IH.
Qed.

Lemma bisect_right_loop_steps arr x fuel : forall g d,
  0 <= g -> d <= len arr ->
  steps_inv arr x g (d - 1)
    (steps_of (fst (bisect_right_loop fuel arr x g d))).
Proof.
  induction fuel as [|fuel IH]; intros g d Hg Hd;
    cbn [bisect_right_loop]; destruct (Z.ltb_spec g d) as [Hlt|Hge];
    try inv_final.
  - apply steps_inv_nil.
  - pose proof (mid_bounds_strict g d Hlt) as Hmid.
    assert (Hm : 0 <= (g + d) / 2 < len arr) by lia.
    cbv zeta. step_body Hm.
    destruct (Z.leb_spec (item arr ((g + d) / 2)) x); step_body Hm;
      inv_iteration IH.
Qed.

Lemma generators_steps :
  Forall (fun gen => forall arr x,
            steps_inv arr x 0 (len arr - 1) (trace (gen arr x)))
         generators.
Proof.
  unfold generators. repeat apply Forall_cons; [.. | apply Forall_nil];
    intros arr x; unfold trace.
  - apply find_any_loop_steps; lia.
  - apply first_occurrence_loop_steps; lia.
  - apply last_occurrence_loop_steps; lia.
  - apply bisect_left_loop_steps; lia.
  - apply bisect_right_loop_steps; lia.
Qed.

(* ================================================================== *)
(** ** Payloads on an arbitrary list *)

Lemma yields_payload_read i t (o : outcome unit) p :
  yields_payload (t, o) p -> yields_payload (Read i :: t, o) p.
Proof. intros H. exact H. Qed.

Lemma yields_payload_yield s t (o : outcome unit) p :
  yields_payload (t, o) p -> yields_payload (Yield s :: t, o) p.
Proof.
  intros (st & Ht & Hd & Hp). exists st. split; [|split; assumption].
  apply terminal_cons. exact Ht.
Qed.

Lemma yields_payload_fst (c : Gen unit) p :
  yields_payload c p -> yields_payload (fst c, snd c) p.
Proof. destruct c. intros H. exact H. Qed.

Lemma yields_payload_done s (o : outcome unit) p :
  done s = true -> payload s = Some p -> yields_payload ([Yield s], o) p.
Proof. intros Hd Hp. exists s. repeat split; assumption. Qed.

Lemma yields_payload_unique c p q :
  yields_payload c p -> yields_payload c q -> p = q.
Proof. intros (st & Ht & _ & Hp) (st' & Ht' & _ & Hq). congruence. Qed.

Lemma ends_with_intro (c : Gen unit) p :
  snd c = Return tt -> yields_payload c p -> ends_with c p.
Proof. intros Hr Hy. split; [exact Hr | exact Hy]. Qed.

(** Peels the reads and the yield of an iteration off the goal. *)
Ltac payload_step :=
  repeat apply yields_payload_read;
  first
    [ apply yields_payload_done; reflexivity
    | apply yields_payload_yield; apply yields_payload_fst ].

Lemma find_any_loop_sound arr x fuel : forall g d,
  0 <= g -> d < len arr -> d - g + 1 <= Z.of_nat fuel ->
  exists p,
    yields_payload (find_any_loop fuel arr x g d) p
    /\ (p = -1 \/ g <= p <= d /\ item arr p = x).
Proof.
  induction fuel as [|fuel IH]; intros g d Hg Hd Hf;
    cbn [find_any_loop]; destruct (Z.leb_spec g d) as [Hle|Hgt]; try lia.
  1, 3: exists (-1); split; [apply yields_payload_done; reflexivity | left; reflexivity].
  pose proof (mid_bounds g d Hle) as Hmid.
  assert (Hm : 0 <= (g + d) / 2 < len arr) by lia.
  cbv zeta. step_body Hm.
  destruct (Z.eqb_spec (item arr ((g + d) / 2)) x) as [He|Hne];
    step_body Hm.
  - exists ((g + d) / 2). split; [payload_step|]. right. split; [lia | exact He].
  - destruct (Z.ltb_spec (item arr ((g + d) / 2)) x); step_body Hm.
    + destruct (IH ((g + d) / 2 + 1) d) as (p & Hp & Hpost); try lia.
      exists p. split; [payload_step; exact Hp|].
      destruct Hpost as [->|[Hr Hx]]; [left; reflexivity | right; split; [lia | exact Hx]].
    + destruct (IH g ((g + d) / 2 - 1)) as (p & Hp & Hpost); try lia.
      exists p. split; [payload_step; exact Hp|].
      destruct Hpost as [->|[Hr Hx]]; [left; reflexivity | right; split; [lia | exact Hx]].
Qed.

Lemma first_occurrence_loop_sound arr x fuel : forall g d res,
  0 <= g -> d < len arr -> d - g + 1 <= Z.of_nat fuel ->
  exists p,
    yields_payload (first_occurrence_loop fuel arr x g d res) p
    /\ (p = res \/ g <= p <= d /\ item arr p = x).
Proof.
  induction fuel as [|fuel IH]; intros g d res Hg Hd Hf;
    cbn [first_occurrence_loop]; destruct (Z.leb_spec g d) as [Hle|Hgt];
    try lia.
  1, 3: exists res; split; [apply yields_payload_done; reflexivity | left; reflexivity].
  pose proof (mid_bounds g d Hle) as Hmid.
  assert (Hm : 0 <= (g + d) / 2 < len arr) by lia.
  cbv zeta. step_body Hm.
  destruct (Z.geb_spec (item arr ((g + d) / 2)) x); step_body Hm.
  - destruct (Z.eqb_spec (item arr ((g + d) / 2)) x) as [He|Hne];
      step_body Hm.
    + destruct (IH g ((g + d) / 2 - 1) ((g + d) / 2)) as (p & Hp & Hpost);
        try lia.
      exists p. split; [payload_step; exact Hp|]. right.
      destruct Hpost as [->|[Hr Hx]]; split; solve [lia | assumption].
    + destruct (IH g ((g + d) / 2 - 1) res) as (p & Hp & Hpost); try lia.
      exists p. split; [payload_step; exact Hp|].
      destruct Hpost as [->|[Hr Hx]]; [left; reflexivity | right; split; [lia | exact Hx]].
  - destruct (IH ((g + d) / 2 + 1) d res) as (p & Hp & Hpost); try lia.
    exists p. split; [payload_step; exact Hp|].
    destruct Hpost as [->|[Hr Hx]]; [left; reflexivity | right; split; [lia | exact Hx]].
Qed.

Lemma last_occurrence_loop_sound arr x fuel : forall g d res,
  0 <= g -> d < len arr -> d - g + 1 <= Z.of_nat fuel ->
  exists p,
    yields_payload (last_occurrence_loop fuel arr x g d res) p
    /\ (p = res \/ g <= p <= d /\ item arr p = x).
Proof.
  induction fuel as [|fuel IH]; intros g d res Hg Hd Hf;
    cbn [last_occurrence_loop]; destruct (Z.leb_spec g d) as [Hle|Hgt];
    try lia.
  1, 3: exists res; split; [apply yields_payload_done; reflexivity | left; reflexivity].
  pose proof (mid_bounds g d Hle) as Hmid.
  assert (Hm : 0 <= (g + d) / 2 < len arr) by lia.
  cbv zeta. step_body Hm.
  destruct (Z.leb_spec (item arr ((g + d) / 2)) x); step_body Hm.
  - destruct (Z.eqb_spec (item arr ((g + d) / 2)) x) as [He|Hne];
      step_body Hm.
    + destruct (IH ((g + d) / 2 + 1) d ((g + d) / 2)) as (p & Hp & Hpost);
        try lia.
      exists p. split; [payload_step; exact Hp|]. right.
      destruct Hpost as [->|[Hr Hx]]; split; solve [lia | assumption].
    + destruct (IH ((g + d) / 2 + 1) d res) as (p & Hp & Hpost); try lia.
      exists p. split; [payload_step; exact Hp|].
      destruct Hpost as [->|[Hr Hx]]; [left; reflexivity | right; split; [lia | exact Hx]].
  - destruct (IH g ((g + d) / 2 - 1) res) as (p & Hp & Hpost); try lia.
    exists p. split; [payload_step; exact Hp|].
    destruct Hpost as [->|[Hr Hx]]; [left; reflexivity | right; split; [lia | exact Hx]].
Qed.

(** The three closed-interval searches probe the same cells until the
    key is met: they find it or miss it together, and first <= presence
    <= last. *)
Lemma occurrence_loops_agree arr x fuel : forall g d,
  0 <= g -> d < len arr -> d - g + 1 <= Z.of_nat fuel ->
  exists pf pp pl,
    yields_payload (first_occurrence_loop fuel arr x g d (-1)) pf
    /\ yields_payload (find_any_loop fuel arr x g d) pp
    /\ yields_payload (last_occurrence_loop fuel arr x g d (-1)) pl
    /\ (pf = -1 /\ pp = -1 /\ pl = -1
        \/ g <= pf /\ pf <= pp /\ pp <= pl /\ pl <= d
           /\ item arr pf = x /\ item arr pp = x /\ item arr pl = x).
Proof.
  induction fuel as [|fuel IH]; intros g d Hg Hd Hf;
    cbn [first_occurrence_loop find_any_loop last_occurrence_loop];
    destruct (Z.leb_spec g d) as [Hle|Hgt]; try lia.
  1, 3:
    exists (-1), (-1), (-1);
    repeat (split; [apply yields_payload_done; reflexivity|]);
    left; repeat split.
  pose proof (mid_bounds g d Hle) as Hmid.
  assert (Hm : 0 <= (g + d) / 2 < len arr) by lia.
  cbv zeta. step_body Hm.
  destruct (Z.eqb_spec (item arr ((g + d) / 2)) x) as [He|Hne].
  - destruct (Z.geb_spec (item arr ((g + d) / 2)) x); [|lia].
    destruct (Z.leb_spec (item arr ((g + d) / 2)) x); [|lia].
    step_body Hm.
    destruct (first_occurrence_loop_sound arr x fuel
                g ((g + d) / 2 - 1) ((g + d) / 2))
      as (pf & Hpf & Hf'); try lia.
    destruct (last_occurrence_loop_sound arr x fuel
                ((g + d) / 2 + 1) d ((g + d) / 2))
      as (pl & Hpl & Hl'); try lia.
    exists pf, ((g + d) / 2), pl.
    split; [payload_step; exact Hpf|].
    split; [payload_step|].
    split; [payload_step; exact Hpl|].
    right.
    destruct Hf' as [->|[Hfr Hfx]]; destruct Hl' as [->|[Hlr Hlx]];
      repeat split; solve [lia | assumption].
  - destruct (Z.ltb_spec (item arr ((g + d) / 2)) x) as [Hlt|Hge].
    + destruct (Z.geb_spec (item arr ((g + d) / 2)) x); [lia|].
      destruct (Z.leb_spec (item arr ((g + d) / 2)) x); [|lia].
      step_body Hm.
      destruct (IH ((g + d) / 2 + 1) d)
        as (pf & pp & pl & Hpf & Hpp & Hpl & Hpost); try lia.
      exists pf, pp, pl.
      split; [payload_step; exact Hpf|].
      split; [payload_step; exact Hpp|].
      split; [payload_step; exact Hpl|].
      destruct Hpost as [Hq|Hq]; [left; exact Hq | right].
      repeat split; solve [lia | apply Hq].
    + destruct (Z.geb_spec (item arr ((g + d) / 2)) x); [|lia].
      destruct (Z.leb_spec (item arr ((g + d) / 2)) x); [lia|].
      step_body Hm.
      destruct (IH g ((g + d) / 2 - 1))
        as (pf & pp & pl & Hpf & Hpp & Hpl & Hpost); try lia.
      exists pf, pp, pl.
      split; [payload_step; exact Hpf|].
      split; [payload_step; exact Hpp|].
      split; [payload_step; exact Hpl|].
      destruct Hpost as [Hq|Hq]; [left; exact Hq | right].
      repeat split; solve [lia | apply Hq].
Qed.

Lemma bisect_left_loop_local arr x fuel : forall g d,
  0 <= g -> g <= d -> d <= len arr -> d - g <= Z.of_nat fuel ->
  (g = 0 \/ item arr (g - 1) < x) ->
  (d = len arr \/ x <= item arr d) ->
  exists p,
    yields_payload (bisect_left_loop fuel arr x g d) p
    /\ 0 <= p <= len arr
    /\ (p = 0 \/ item arr (p - 1) < x)
    /\ (p = len arr \/ x <= item arr p).
Proof.
  induction fuel as [|fuel IH]; intros g d Hg Hgd Hd Hf Hlo Hhi;
    cbn [bisect_left_loop]; destruct (Z.ltb_spec g d) as [Hlt|Hge];
    try lia.
  1, 3:
    assert (d = g) by lia; subst d; exists g;
    split; [apply yields_payload_done; reflexivity|];
    split; [lia|]; split; assumption.
  pose proof (mid_bounds_strict g d Hlt) as Hmid.
  assert (Hm : 0 <= (g + d) / 2 < len arr) by lia.
  cbv zeta. step_body Hm.
  destruct (Z.ltb_spec (item arr ((g + d) / 2)) x); step_body Hm.
  - destruct (IH ((g + d) / 2 + 1) d) as (p & Hp & Hpost); try lia;
      try (right; replace ((g + d) / 2 + 1 - 1) with ((g + d) / 2) by lia;
           assumption).
    exists p. split; [payload_step; exact Hp | exact Hpost].
  - destruct (IH g ((g + d) / 2)) as (p & Hp & Hpost); try lia;
      try (right; assumption).
    exists p. split; [payload_step; exact Hp | exact Hpost].
Qed.

Lemma bisect_right_loop_local arr x fuel : forall g d,
  0 <= g -> g <= d -> d <= len arr -> d - g <= Z.of_nat fuel ->
  (g = 0 \/ item arr (g - 1) <= x) ->
  (d = len arr \/ x < item arr d) ->
  exists p,
    yields_payload (bisect_right_loop fuel arr x g d) p
    /\ 0 <= p <= len arr
    /\ (p = 0 \/ item arr (p - 1) <= x)
    /\ (p = len arr \/ x < item arr p).
Proof.
  induction fuel as [|fuel IH]; intros g d Hg Hgd Hd Hf Hlo Hhi;
    cbn [bisect_right_loop]; destruct (Z.ltb_spec g d) as [Hlt|Hge];
    try lia.
  1, 3:
    assert (d = g) by lia; subst d; exists g;
    split; [apply yields_payload_done; reflexivity|];
    split; [lia|]; split; assumption.
  pose proof (mid_bounds_strict g d Hlt) as Hmid.
  assert (Hm : 0 <= (g + d) / 2 < len arr) by lia.
  cbv zeta. step_body Hm.
  destruct (Z.leb_spec (item arr ((g + d) / 2)) x); step_body Hm.
  - destruct (IH ((g + d) / 2 + 1) d) as (p & Hp & Hpost); try lia;
      try (right; replace ((g + d) / 2 + 1 - 1) with ((g + d) / 2) by lia;
           assumption).
    exists p. split; [payload_step; exact Hp | exact Hpost].
  - destruct (IH g ((g + d) / 2)) as (p & Hp & Hpost); try lia;
      try (right; assumption).
    exists p. split; [payload_step; exact Hp | exact Hpost].
Qed.

Lemma closed_searches_agree arr k :
  exists f p l,
    ends_with (steps_first_occurrence arr k) f
    /\ ends_with (steps_find_any arr k) p
    /\ ends_with (steps_last_occurrence arr k) l
    /\ (f = -1 /\ p = -1 /\ l = -1
        \/ 0 <= f /\ f <= p /\ p <= l /\ l < len arr
           /\ item arr f = k /\ item arr p = k /\ item arr l = k).
Proof.
  destruct (occurrence_loops_agree arr k (List.length arr) 0 (len arr - 1))
    as (f & p & l & Hf & Hp & Hl & Hpost); try (unfold len; lia).
  exists f, p, l.
  split; [apply ends_with_intro; [apply steps_first_occurrence_ok | exact Hf]|].
  split; [apply ends_with_intro; [apply steps_find_any_ok | exact Hp]|].
  split; [apply ends_with_intro; [apply steps_last_occurrence_ok | exact Hl]|].
  destruct Hpost as [Hq|Hq]; [left; exact Hq | right].
  repeat split; solve [lia | apply Hq].
Qed.

Lemma bisects_local arr k :
  exists bl br,
    ends_with (steps_bisect_left arr k) bl
    /\ ends_with (steps_bisect_right arr k) br
    /\ (0 <= bl <= len arr
        /\ (bl = 0 \/ item arr (bl - 1) < k)
        /\ (bl = len arr \/ k <= item arr bl))
    /\ (0 <= br <= len arr
        /\ (br = 0 \/ item arr (br - 1) <= k)
        /\ (br = len arr \/ k < item arr br)).
Proof.
  destruct (bisect_left_loop_local arr k (List.length arr) 0 (len arr))
    as (bl & Hl & Hlp); try (unfold len; lia); try (left; reflexivity).
  destruct (bisect_right_loop_local arr k (List.length arr) 0 (len arr))
    as (br & Hr & Hrp); try (unfold len; lia); try (left; reflexivity).
  exists bl, br.
  split; [apply ends_with_intro; [apply steps_bisect_left_ok | exact Hl]|].
  split; [apply ends_with_intro; [apply steps_bisect_right_ok | exact Hr]|].
  split; assumption.
Qed.

(* ================================================================== *)
(** ** Further properties of the trace engine and the runner *)

(** X1 — On any list, sorted or not, first_occurrence, presence and
    last_occurrence find the key or miss it together: either all three
    end with [-1], or they end with indices [f <= p <= l] of the list
    that all hold the key. *)
Theorem searches_agree_on_any_list (arr : list Z) (k : Z) :
  exists f p l,
    ends_with (steps_first_occurrence arr k) f
    /\ ends_with (steps_find_any arr k) p
    /\ ends_with (steps_last_occurrence arr k) l
    /\ (f = -1 /\ p = -1 /\ l = -1
        \/ f <= p /\ p <= l
           /\ occurs_at arr k f /\ occurs_at arr k p /\ occurs_at arr k l).
Proof.
  destruct (closed_searches_agree arr k)
    as (f & p & l & Hf & Hp & Hl & Hpost).
  exists f, p, l. repeat (split; [assumption|]).
  destruct Hpost as [Hq|(H0 & Hfp & Hpl & Hn & Hxf & Hxp & Hxl)];
    [left; exact Hq | right].
  unfold occurs_at. repeat split; solve [lia | assumption].
Qed.

(** X2 — On any list, the payload of each bisect variant lies in
    [[0, n]] and is a local insertion point: the cell before it (if any)
    is below the key ([<] for bisect_left, [<=] for bisect_right) and
    the cell at it (if any) is not. *)
Theorem bisect_local_on_any_list (arr : list Z) (k : Z) :
  exists bl br,
    ends_with (steps_bisect_left arr k) bl
    /\ ends_with (steps_bisect_right arr k) br
    /\ 0 <= bl <= len arr /\ 0 <= br <= len arr
    /\ (0 < bl -> item arr (bl - 1) < k)
    /\ (bl < len arr -> k <= item arr bl)
    /\ (0 < br -> item arr (br - 1) <= k)
    /\ (br < len arr -> k < item arr br).
Proof.
  destruct (bisects_local arr k)
    as (bl & br & Hl & Hr & (Hlb & Hl1 & Hl2) & (Hrb & Hr1 & Hr2)).
  exists bl, br. repeat (split; [assumption|]).
  repeat split; intros Hc.
  - destruct Hl1 as [->|H]; [lia | exact H].
  - destruct Hl2 as [->|H]; [lia | exact H].
  - destruct Hr1 as [->|H]; [lia | exact H].
  - destruct Hr2 as [->|H]; [lia | exact H].
Qed.

(** X3 — For each of the five generators and any list, [run_steps]
    returns a payload: the "no result" outcome ([None]) never happens,
    nor does an exception. *)
Theorem run_steps_returns_payload :
  Forall (fun gen => forall arr x,
            exists p, run_steps arr x gen = Return (Some p))
         generators.
Proof.
  unfold generators. repeat apply Forall_cons; [.. | apply Forall_nil];
    intros arr x.
  - destruct (closed_searches_agree arr x) as (f & p & l & _ & Hp & _).
    exists p. apply ends_with_run_steps. exact Hp.
  - destruct (closed_searches_agree arr x) as (f & p & l & Hf & _).
    exists f. apply ends_with_run_steps. exact Hf.
  - destruct (closed_searches_agree arr x) as (f & p & l & _ & _ & Hl & _).
    exists l. apply ends_with_run_steps. exact Hl.
  - destruct (bisects_local arr x) as (bl & br & Hl & _).
    exists bl. apply ends_with_run_steps. exact Hl.
  - destruct (bisects_local arr x) as (bl & br & _ & Hr & _).
    exists br. apply ends_with_run_steps. exact Hr.
Qed.

(** X4 — On any list, [run_count_occurrences] never takes its defensive
    branches ([last is None] or [last < first]): the summary is the
    absent one, or a range [first <= last] of two cells holding the key
    with count [last - first + 1 >= 1]. *)
Theorem count_occurrences_never_defensive (arr : list Z) (k : Z) :
  exists b,
    run_count_occurrences arr k = Return b
    /\ (b = Absent
        \/ exists f l,
             b = Plage f (Some l) (l - f + 1)
             /\ f <= l /\ occurs_at arr k f /\ occurs_at arr k l).
Proof.
  destruct (closed_searches_agree arr k)
    as (f & p & l & Hf & Hp & Hl & Hpost).
  unfold run_count_occurrences.
  rewrite (ends_with_run_steps _ _ _ _ Hf), (ends_with_run_steps _ _ _ _ Hl).
  destruct Hpost as [(-> & _ & _)|(H0 & Hfp & Hpl & Hn & Hxf & Hxp & Hxl)].
  - exists Absent. split; [reflexivity | left; reflexivity].
  - destruct (Z.eqb_spec f (-1)) as [E|_]; [lia|].
    destruct (Z.ltb_spec l f) as [E|_]; [lia|].
    eexists. split; [reflexivity|]. right. exists f, l.
    unfold occurs_at. repeat split; solve [lia | assumption].
Qed.

(** X5 — Every step of every trace, on any list, is either the final
    step or a truthful probe: [0 <= left <= mid <= right < n], [mid] is
    the middle of the displayed interval or the cell after it, and the
    relation tag is one of ["<"], [">"], ["=="], ["<="], [">="] and
    holds between [arr[mid]] and the key. *)
Theorem steps_probe_truthfully :
  Forall (fun gen => forall arr x,
            Forall (probe_ok arr x) (trace (gen arr x)))
         generators.
Proof.
  eapply Forall_impl; [|exact generators_steps].
  intros gen Hgen arr x. apply (Hgen arr x).
Qed.

(** X6 — Along every trace, on any list, the displayed intervals are
    nested: every step has [0 <= left] and [right <= n - 1], and [left]
    never decreases and [right] never increases from a step to any
    later step. *)
Theorem steps_intervals_nested :
  Forall (fun gen => forall arr x,
            Forall (within 0 (len arr - 1)) (trace (gen arr x))
            /\ StronglySorted nested (trace (gen arr x)))
         generators.
Proof.
  eapply Forall_impl; [|exact generators_steps].
  intros gen Hgen arr x. apply (Hgen arr x).
Qed.

Lemma count_le_split arr x : count_le arr x = count_lt arr x + count_eq arr x.
Proof.
  unfold count_le, count_lt, count_eq.
  induction arr as [|a tl IH]; [reflexivity|].
  cbn [filter].
  destruct (Z.leb_spec a x), (Z.ltb_spec a x), (Z.eqb_spec a x);
    cbn [List.length]; lia.
Qed.

(** On a sorted list both occurrence runs are determined by the two
    insertion points. *)
Lemma occurrence_runs_sorted arr k :
  sorted arr ->
  exists bl br,
    bl = count_lt arr k /\ br = count_le arr k
    /\ 0 <= bl /\ bl <= br /\ br <= len arr
    /\ (forall i, occurs_at arr k i <-> bl <= i <= br - 1)
    /\ run_steps arr k steps_first_occurrence
       = Return (Some (if bl =? br then -1 else bl))
    /\ run_steps arr k steps_last_occurrence
       = Return (Some (if bl =? br then -1 else br - 1)).
Proof.
  intros Hs.
  destruct (steps_bisect_left_spec arr k Hs) as (bl & _ & Hlb & Hl1 & Hl2).
  destruct (steps_bisect_right_spec arr k Hs) as (br & _ & Hrb & Hr1 & Hr2).
  destruct (steps_first_occurrence_spec arr k Hs) as (f & Hf & Hfp).
  destruct (steps_last_occurrence_spec arr k Hs) as (l & Hl & Hlp).
  assert (Hle : bl <= br)
    by (apply (insertion_points_ordered arr k bl br); assumption).
  assert (Heq : bl = br <-> forall i, ~ occurs_at arr k i)
    by (apply (insertion_points_equal_iff arr k bl br); assumption).
  exists bl, br.
  split.
  { symmetry. apply partition_count; [exact Hlb | |].
    - intros i Hi. apply Z.ltb_lt. apply Hl1. exact Hi.
    - intros i Hi. apply Z.ltb_ge. apply Hl2. exact Hi. }
  split.
  { symmetry. apply partition_count; [exact Hrb | |].
    - intros i Hi. apply Z.leb_le. apply Hr1. exact Hi.
    - intros i Hi. apply Z.leb_gt. apply Hr2. exact Hi. }
  split; [lia|]. split; [exact Hle|]. split; [lia|]. split.
  { intros i. split.
    - intros [Hi Hx].
      destruct (Z.lt_ge_cases i bl) as [Hlt|Hge];
        [specialize (Hl1 i); lia|].
      destruct (Z.lt_ge_cases i br) as [Hlt'|Hge'];
        [lia | specialize (Hr2 i); lia].
    - intros Hi. split; [lia|].
      specialize (Hl2 i). specialize (Hr1 i). lia. }
  rewrite (ends_with_run_steps _ _ _ _ Hf), (ends_with_run_steps _ _ _ _ Hl).
  destruct (Z.eqb_spec bl br) as [E|Hne].
  - pose proof (proj1 Heq E) as Habs.
    destruct Hfp as [[Hfo _] | [-> _]]; [exfalso; exact (Habs f Hfo)|].
    destruct Hlp as [[Hlo _] | [-> _]]; [exfalso; exact (Habs l Hlo)|].
    split; reflexivity.
  - assert (Hocc : occurs_at arr k bl).
    { split; [lia|]. specialize (Hl2 bl). specialize (Hr1 bl). lia. }
    destruct Hfp as [[Hfo Hfm] | [_ Habs]]; [|exfalso; exact (Habs bl Hocc)].
    destruct Hlp as [[Hlo Hlm] | [_ Habs]]; [|exfalso; exact (Habs bl Hocc)].
    assert (Hfb : f = bl)
      by (apply (first_is_left_insertion_point arr k bl); assumption).
    assert (Hlr : l = br - 1)
      by (apply (last_is_right_insertion_point arr k br); assumption).
    subst f l. split; reflexivity.
Qed.

(** X7 — On a sorted list the count reported by [run_count_occurrences]
    is the number of cells of the list equal to the key. *)
Theorem count_is_number_of_occurrences (arr : list Z) (k : Z) :
  sorted arr ->
  exists b,
    run_count_occurrences arr k = Return b
    /\ bilan_count b = count_eq arr k.
Proof.
  intros Hs.
  destruct (occurrence_runs_sorted arr k Hs)
    as (bl & br & Hbl & Hbr & H0 & Hle & Hn & _ & Hf & Hl).
  pose proof (count_le_split arr k) as Hsplit.
  unfold run_count_occurrences. rewrite Hf, Hl.
  destruct (Z.eqb_spec bl br) as [E|Hne].
  - exists Absent. split; [reflexivity|]. cbn. lia.
  - destruct (Z.eqb_spec bl (-1)) as [E|_]; [lia|].
    destruct (Z.ltb_spec (br - 1) bl) as [E|_]; [lia|].
    eexists. split; [reflexivity|]. cbn. lia.
Qed.

Lemma count_is_number_of_occurrences_witness :
  sorted [1; 1; 2; 2; 2; 3; 3; 5; 8; 8; 13; 21]
  /\ exists b,
       run_count_occurrences [1; 1; 2; 2; 2; 3; 3; 5; 8; 8; 13; 21] 2
       = Return b
       /\ bilan_count b = count_eq [1; 1; 2; 2; 2; 3; 3; 5; 8; 8; 13; 21] 2.
Proof.
  split; [apply sortedb_sound; reflexivity|].
  apply (count_is_number_of_occurrences
           [1; 1; 2; 2; 2; 3; 3; 5; 8; 8; 13; 21] 2).
  apply sortedb_sound. reflexivity.
Defined.

(** X8 — On a sorted list [run_range_first_last] reports the absent
    summary when the key does not occur, and otherwise a range
    [[first, last]] that is exactly the set of indices holding the
    key. *)
Theorem range_is_exactly_the_occurrences (arr : list Z) (k : Z) :
  sorted arr ->
  exists r,
    run_range_first_last arr k = Return r
    /\ (~ In k arr -> r = RangeAbsent)
    /\ (In k arr ->
        exists f l,
          r = RangePlage f (Some l)
          /\ forall i, occurs_at arr k i <-> f <= i <= l).
Proof.
  intros Hs.
  destruct (occurrence_runs_sorted arr k Hs)
    as (bl & br & _ & _ & H0 & Hle & Hn & Hocc & Hf & Hl).
  unfold run_range_first_last. rewrite Hf, Hl.
  destruct (Z.eqb_spec bl br) as [E|Hne].
  - exists RangeAbsent. split; [reflexivity|]. split; [reflexivity|].
    intros Hin. apply occurs_iff_In in Hin. destruct Hin as [i Hi].
    apply Hocc in Hi. lia.
  - destruct (Z.eqb_spec bl (-1)) as [E|_]; [lia|].
    eexists. split; [reflexivity|]. split.
    + intros Hnin. exfalso. apply Hnin. apply occurs_iff_In.
      exists bl. apply Hocc. lia.
    + intros _. exists bl, (br - 1). split; [reflexivity | exact Hocc].
Qed.

Lemma range_is_exactly_the_occurrences_witness :
  sorted [3; 5; 9; 9; 10; 12; 12; 14; 17; 18]
  /\ exists r,
       run_range_first_last [3; 5; 9; 9; 10; 12; 12; 14; 17; 18] 12
       = Return r
       /\ (~ In 12 [3; 5; 9; 9; 10; 12; 12; 14; 17; 18] -> r = RangeAbsent)
       /\ (In 12 [3; 5; 9; 9; 10; 12; 12; 14; 17; 18] ->
           exists f l,
             r = RangePlage f (Some l)
             /\ forall i,
                  occurs_at [3; 5; 9; 9; 10; 12; 12; 14; 17; 18] 12 i
                  <-> f <= i <= l).
Proof.
  split; [apply sortedb_sound; reflexivity|].
  apply (range_is_exactly_the_occurrences
           [3; 5; 9; 9; 10; 12; 12; 14; 17; 18] 12).
  apply sortedb_sound. reflexivity.
Defined.

(* ================================================================== *)
(** ** The display window and the markers *)

(** Unfolds [_slice_window] and splits on its two tests. *)
Ltac window_cases :=
  unfold draw_window, _slice_window; cbv zeta;
  repeat match goal with
         | |- context [?a <=? ?b] => destruct (Z.leb_spec a b)
         | |- context [?a <? ?b] => destruct (Z.ltb_spec a b)
         end.

(** X9 — With [min_cells >= 1], the window chosen by [_slice_window]
    lies inside the array and shows exactly [min(n, max_cells)] cells,
    whatever [left], [right] and the terminal width. *)
Theorem slice_window_size (n left right cols min_cells : Z) :
  0 <= n -> 1 <= min_cells ->
  let (i0, i1) := _slice_window n left right cols min_cells in
  0 <= i0 /\ i1 <= n - 1
  /\ i1 - i0 + 1 = Z.min n (Z.max min_cells ((cols - 8) / 6)).
Proof.
  intros Hn Hmin. window_cases; Z.to_euclidean_division_equations; lia.
Qed.

Lemma slice_window_size_witness :
  0 <= 100 /\ 1 <= 8
  /\ let (i0, i1) := _slice_window 100 40 60 80 8 in
     0 <= i0 /\ i1 <= 100 - 1
     /\ i1 - i0 + 1 = Z.min 100 (Z.max 8 ((80 - 8) / 6)).
Proof.
  split; [lia|]. split; [lia|].
  apply (slice_window_size 100 40 60 80 8); lia.
Defined.

(** X10 — With [min_cells >= 1] and a segment [0 <= left <= right < n],
    the window chosen by [_slice_window] contains the middle of the
    segment. *)
Theorem slice_window_shows_center (n left right cols min_cells : Z) :
  0 <= left -> left <= right -> right < n -> 1 <= min_cells ->
  let (i0, i1) := _slice_window n left right cols min_cells in
  i0 <= (left + right) / 2 <= i1.
Proof.
  intros Hl Hlr Hr Hmin.
  window_cases; Z.to_euclidean_division_equations; lia.
Qed.

Lemma slice_window_shows_center_witness :
  0 <= 90 /\ 90 <= 99 /\ 99 < 100 /\ 1 <= 8
  /\ let (i0, i1) := _slice_window 100 90 99 80 8 in
     i0 <= (90 + 99) / 2 <= i1.
Proof.
  repeat (split; [lia|]).
  apply (slice_window_shows_center 100 90 99 80 8); lia.
Defined.

Lemma draw_window_shows_probe arr l r m cols :
  0 <= l -> l <= m -> m <= r -> r < len arr ->
  (l + r) / 2 <= m <= (l + r) / 2 + 1 ->
  let (i0, i1) := draw_window arr l r cols in i0 <= m <= i1.
Proof.
  intros Hl Hlm Hmr Hr Hc.
  replace (Z.max 0 l) with l by lia. replace (Z.max 0 r) with r by lia.
  window_cases; Z.to_euclidean_division_equations; lia.
Qed.

(** X11 — For every step of every trace that is not the final one, on
    any list and for any terminal width, the window [draw_array]
    computes for the step contains the probed cell [mid]. *)
Theorem draw_window_shows_mid :
  Forall (fun gen => forall arr x cols,
            Forall (fun s =>
                      relation s = "final"
                      \/ let (i0, i1) :=
                           draw_window arr (left s) (right s) cols in
                         i0 <= mid s <= i1)
                   (trace (gen arr x)))
         generators.
Proof.
  eapply Forall_impl; [|exact generators_steps].
  intros gen Hgen arr x cols. destruct (Hgen arr x) as (Hprobe & _).
  eapply Forall_impl; [|exact Hprobe].
  intros s [Hfin | (Hl & Hlm & Hmr & Hr & Hc & _)]; [left; exact Hfin|].
  right. apply draw_window_shows_probe; assumption.
Qed.

Lemma mark_shows (i left right mid : Z) :
  has_letter "L"%char (mark i left right mid) = (i =? left)
  /\ has_letter "M"%char (mark i left right mid) = (i =? mid)
  /\ has_letter "R"%char (mark i left right mid) = (i =? right).
Proof.
  unfold mark.
  destruct (Z.eqb_spec i left), (Z.eqb_spec left right),
    (Z.eqb_spec right mid), (Z.eqb_spec left mid),
    (Z.eqb_spec i right), (Z.eqb_spec i mid);
    try lia; repeat split.
Qed.

(** X12 — The marker under the cell of index [i] shows the letter [L]
    exactly when [i = left], [M] exactly when [i = mid] and [R] exactly
    when [i = right]. *)
Theorem mark_letters (i left right mid : Z) :
  has_letter "L"%char (mark i left right mid) = (i =? left)
  /\ has_letter "M"%char (mark i left right mid) = (i =? mid)
  /\ has_letter "R"%char (mark i left right mid) = (i =? right).
Proof. exact (mark_shows i left right mid). Qed.

Lemma py_range_cons lo hi : lo < hi -> py_range lo hi = lo :: py_range (lo + 1) hi.
Proof.
  intros H. unfold py_range.
  replace (Z.to_nat (hi - lo)) with (S (Z.to_nat (hi - (lo + 1)))) by lia.
  cbn [seq map]. f_equal; [lia|].
  rewrite <- seq_shift, map_map. apply map_ext. intros k. lia.
Qed.

Lemma py_range_nil lo hi : hi <= lo -> py_range lo hi = [].
Proof.
  intros H. unfold py_range.
  replace (Z.to_nat (hi - lo)) with O by lia. reflexivity.
Qed.

Lemma py_range_count m hi (n : nat) : forall lo,
  Z.of_nat n = hi - lo ->
  List.length (filter (fun i => i =? m) (py_range lo hi))
  = if (lo <=? m) && (m <? hi) then 1%nat else 0%nat.
Proof.
  induction n as [|n IH]; intros lo Hn.
  - rewrite py_range_nil by lia.
    destruct (Z.leb_spec lo m), (Z.ltb_spec m hi); try reflexivity; lia.
  - rewrite py_range_cons by lia. cbn [filter].
    rewrite Nat2Z.inj_succ in Hn.
    specialize (IH (lo + 1) ltac:(lia)).
    destruct (Z.eqb_spec lo m) as [E|Hne]; cbn [List.length]; rewrite IH;
      destruct (Z.leb_spec lo m), (Z.leb_spec (lo + 1) m),
        (Z.ltb_spec m hi); cbn; try reflexivity; lia.
Qed.

Lemma filter_map_length {A B} (f : B -> bool) (g : A -> B) l :
  List.length (filter f (map g l))
  = List.length (filter (fun a => f (g a)) l).
Proof.
  induction l as [|a l IH]; [reflexivity|].
  cbn [map filter]. destruct (f (g a)); cbn [List.length]; rewrite IH;
    reflexivity.
Qed.

Lemma draw_markers_one_M arr l r m cols :
  0 <= l -> l <= m -> m <= r -> r < len arr ->
  (l + r) / 2 <= m <= (l + r) / 2 + 1 ->
  List.length (filter (has_letter "M"%char) (draw_markers arr l r m cols))
  = 1%nat.
Proof.
  intros Hl Hlm Hmr Hr Hc.
  pose proof (draw_window_shows_probe arr l r m cols Hl Hlm Hmr Hr Hc) as Hw.
  unfold draw_markers. destruct (draw_window arr l r cols) as [i0 i1].
  rewrite filter_map_length.
  rewrite (filter_ext _ (fun i => i =? m))
    by (intros i; apply (mark_shows i l r m)).
  rewrite (py_range_count m (i1 + 1) (Z.to_nat (i1 + 1 - i0))) by lia.
  destruct (Z.leb_spec i0 m), (Z.ltb_spec m (i1 + 1)); try reflexivity; lia.
Qed.

(** X13 — For every step of every trace that is not the final one, on
    any list and for any terminal width, exactly one of the markers
    [draw_array] builds for the step shows the letter [M]. *)
Theorem draw_markers_show_mid_once :
  Forall (fun gen => forall arr x cols,
            Forall (fun s =>
                      relation s = "final"
                      \/ List.length
                           (filter (has_letter "M"%char)
                              (draw_markers arr (left s) (right s) (mid s)
                                 cols))
                         = 1%nat)
                   (trace (gen arr x)))
         generators.
Proof.
  eapply Forall_impl; [|exact generators_steps].
  intros gen Hgen arr x cols. destruct (Hgen arr x) as (Hprobe & _).
  eapply Forall_impl; [|exact Hprobe].
  intros s [Hfin | (Hl & Hlm & Hmr & Hr & Hc & _)]; [left; exact Hfin|].
  right. apply draw_markers_one_M; assumption.
Qed.
